(** * gitstatus: the directory lister and the request loop

    A shallow embedding of [src/dir.cc] (the directory lister, both the
    raw-syscall Linux build and the portable build) and of
    [gitstatus.cc] ([ProcessRequest] and the [GitStatus] request loop),
    with the properties the specification states about them. *)

From Stdlib Require Import ZArith Ascii String List Lia.
From stdpp Require Import base tactics option list strings.

Local Open Scope string_scope.
Local Open Scope nat_scope.
Local Open Scope list_scope.

(** ** Part 1: dir.cc *)

(** [std::string] is a sequence of [char]; the arena is used as a byte
    store, so it is kept as a list of characters. *)
Definition arena_t := list ascii.

Definition NUL : ascii := "000"%char.
Definition DOT : ascii := "."%char.

(** A [char[]] holding a NUL-terminated C string. [name[i]] is [c_at], which
    reads the terminator for the first index past the array. *)
Definition c_at (name : list ascii) (i : nat) : ascii := nth i name NUL.

(** The C string stored in a [char[]]: the characters before the first NUL.
    This is what [arena += ent->d_name] appends. The kernel terminates every
    [d_name]; an array without a NUL is read to its end. *)
Fixpoint c_str (name : list ascii) : list ascii :=
  match name with
  | [] => []
  | c :: rest => if Ascii.eqb c NUL then [] else c :: c_str rest
  end.

(** dir.cc, [Dots]. *)
Definition Dots (name : list ascii) : bool :=
  if Ascii.eqb (c_at name 0) DOT then
    if Ascii.eqb (c_at name 1) NUL then true
    else if Ascii.eqb (c_at name 1) DOT && Ascii.eqb (c_at name 2) NUL then true
    else false
  else false.

(** [struct linux_dirent64] (and, for the fields the code reads,
    [struct dirent]). *)
Record dirent := {
  d_ino : Z;
  d_off : Z;
  d_reclen : Z;
  d_type : ascii;
  d_name : list ascii
}.

(** The two output parameters of [ListDir]: [std::string& arena] and
    [std::vector<size_t>& entries]. *)
Record listing := {
  arena : arena_t;
  entries : list nat
}.

(** The body shared by both loops:
<<
      if (!Dots(ent->d_name)) {
        arena += ent->d_type;
        entries.push_back(arena.size());
        arena += ent->d_name;
        arena.append(2, '\0');
      }
>> *)
Definition push_entry (out : listing) (ent : dirent) : listing :=
  if Dots (d_name ent) then out
  else
    let arena1 := arena out ++ [d_type ent] in
    let entries1 := entries out ++ [length arena1] in
    let arena2 := arena1 ++ c_str (d_name ent) in
    {| arena := arena2 ++ [NUL; NUL]; entries := entries1 |}.

Module Linux.

(** What successive [syscall(SYS_getdents64, fd, buf, kBufSize)] calls on
    one descriptor return, up to and including the first call whose result
    is not positive. A positive [n] comes with the records that tile
    [buf[0..n)], each [d_reclen] bytes long, which is the order in which
    the [for (pos = 0; pos < n; pos += ent->d_reclen)] loop visits them;
    such a batch holds at least one record. *)
Inductive getdents :=
| GdError                                               (* n < 0 *)
| GdEnd                                                 (* n == 0 *)
| GdBatch (ent : dirent) (ents : list dirent) (next : getdents). (* n > 0 *)

(** [open(dirname, O_RDONLY | O_DIRECTORY | ...)]: [None] is [fd < 0]. *)
Definition filesystem := string -> option getdents.

(** The [while (true)] loop. *)
Fixpoint read_loop (calls : getdents) (out : listing) : bool * listing :=
  match calls with
  | GdError => (false, out)
  | GdEnd => (true, out)
  | GdBatch ent ents next =>
      read_loop next (fold_left push_entry (ent :: ents) out)
  end.

(** [ListDir], [#ifdef __linux__]. After a successful [open] the arena and
    the index vector are cleared ([arena.clear(); entries.clear();]) and
    the loop starts from the empty listing. The descriptor is closed on
    scope exit; the close is taken to succeed. *)
Definition ListDir (fs : filesystem) (dirname : string) (out : listing)
  : bool * listing :=
  match fs dirname with
  | None => (false, out)
  | Some calls => read_loop calls {| arena := []; entries := [] |}
  end.

End Linux.

Module Portable.

(** What successive [readdir(dir)] calls return: entries, then a null
    pointer, which [readdir] returns at the end of the directory and
    also on an error (with [errno] set). *)
Inductive readdir :=
| RdEnd
| RdError
| RdEntry (ent : dirent) (next : readdir).

(** [opendir(dirname)]: [None] is a null [DIR*]. *)
Definition filesystem := string -> option readdir.

(** [while (struct dirent* ent = readdir(dir))]. *)
Fixpoint read_loop (calls : readdir) (out : listing) : listing :=
  match calls with
  | RdEnd => out
  | RdError => out
  | RdEntry ent next => read_loop next (push_entry out ent)
  end.

(** [ListDir], [#else]. *)
Definition ListDir (fs : filesystem) (dirname : string) (out : listing)
  : bool * listing :=
  match fs dirname with
  | None => (false, out)
  | Some calls => (true, read_loop calls out)
  end.

End Portable.

(** ** Part 2: gitstatus.cc *)

(** *** Collaborators

    [ProcessRequest] calls into the repository cache, the git helpers of
    [git.h] and libgit2. Their code is not part of the sources at hand, so
    their behaviour during one request is a parameter: a table of what each
    call answers. A helper of this repository may throw
    [gitstatus::Exception] ([Raise]); the C functions of libgit2 do not. *)

Inductive outcome (A : Type) :=
| Ret (a : A)
| Raise.
Arguments Ret {A} a.
Arguments Raise {A}.

(** Native handles are opaque; [Repo] stands for both the [Repo*] and the
    [git_repository*] that [repo->repo()] returns. *)
Definition Repo := nat.
Definition git_reference := nat.
Definition git_oid := nat.

Record Request := {
  id : string;
  dir : string;
  diag : bool
}.

Record Options := {
  num_threads : Z;
  dirty_max_index_size : Z;
  lock_fd : Z;
  sigwinch_pid : Z
}.

Record IndexStats := {
  has_staged : Z;
  has_unstaged : Z;
  has_untracked : Z
}.

(** Modelled from the spec: [git.h] and [repo_cache.h] are missing.
    [cache_Open] is [RepoCache::Open], which answers a null pointer when the
    directory is not inside a repository. [CountRange] and [NumStashes]
    return a natural number: the spec has [ahead], [behind] and
    [num_stashes] as non-negative integers, the count of the commits in a
    revision range and the count of the stashes. [GetTagName] returns at
    once with a future, whose shared state resolves to the tag name or to an
    exception; the resolver runs in the background until then. *)
Record Collaborators := {
  cache_Open : string -> outcome (option Repo);
  Head : Repo -> outcome (option git_reference);
  git_reference_target : git_reference -> option git_oid;
  GetTagName : Repo -> option git_oid -> outcome (outcome string);
  git_repository_workdir : Repo -> option string;
  git_oid_tostr_s : git_oid -> string;
  LocalBranchName : git_reference -> outcome string;
  Upstream : git_reference -> outcome (option git_reference);
  RemoteBranchName : Repo -> git_reference -> outcome string;
  RemoteUrl : Repo -> git_reference -> outcome string;
  RepoState : Repo -> outcome string;
  GetIndexStats : Repo -> option git_oid -> Z -> outcome IndexStats;
  git_reference_shorthand : git_reference -> string;
  CountRange : Repo -> string -> outcome N;
  NumStashes : Repo -> outcome N
}.

(** *** Program state *)

(** A response field as [ResponseWriter::Print] receives it: a string
    ([StringView], [const char*], [std::string]) or an integer ([ssize_t]). *)
Inductive field :=
| FStr (s : string)
| FInt (z : Z).

(** Modelled from the spec: [response.h] is missing. The writer buffers the
    fields printed for one request and flushes one record; the record
    starts with the request id and [is_repo], which is "1" when the
    repository was found and processed and else "0" with no further field. *)
Record ResponseWriter := {
  request_id_ : string;
  strm_ : list field;
  done_ : bool
}.

(** [std::future<std::string>]: whether it still refers to a shared state,
    and what that state resolves to. *)
Record future := {
  valid : bool;
  shared : outcome string
}.

Inductive severity := INFO | ERROR.

Inductive log_line :=
| Log (sev : severity) (msg : string) (req : option Request).

Inductive event :=
| EvTimerReport (what : string)
| EvReferenceFree (ref : git_reference)
| EvTagScheduled      (* GetTagName handed back a future: the resolver runs *)
| EvTagWait           (* tag.wait() returned *)
| EvTagGet.           (* tag.get() returned or rethrew *)

(** Standard output (one list of fields per flushed record), the log, the
    trace of resource events, and the two locals of [ProcessRequest] that
    its scope guards capture by reference. *)
Record state := {
  cout : list (list field);
  logs : list log_line;
  events : list event;
  resp : ResponseWriter;
  tag : future
}.

Definition emit (record : list field) (s : state) : state :=
  {| cout := cout s ++ [record]; logs := logs s; events := events s;
     resp := resp s; tag := tag s |}.

Definition add_log (l : log_line) (s : state) : state :=
  {| cout := cout s; logs := logs s ++ [l]; events := events s;
     resp := resp s; tag := tag s |}.

Definition add_event (e : event) (s : state) : state :=
  {| cout := cout s; logs := logs s; events := events s ++ [e];
     resp := resp s; tag := tag s |}.

Definition set_resp (w : ResponseWriter) (s : state) : state :=
  {| cout := cout s; logs := logs s; events := events s;
     resp := w; tag := tag s |}.

Definition set_tag (f : future) (s : state) : state :=
  {| cout := cout s; logs := logs s; events := events s;
     resp := resp s; tag := f |}.

(** *** Control flow: normal completion, [return], and a thrown exception *)

Inductive result (A : Type) :=
| Normal (a : A)
| Return
| Throw.
Arguments Normal {A} a.
Arguments Return {A}.
Arguments Throw {A}.

Definition M (A : Type) : Type := state -> result A * state.

#[global] Instance M_ret : MRet M := fun A a s => (Normal a, s).

#[global] Instance M_bind : MBind M := fun A B k m s =>
  match m s with
  | (Normal a, s') => k a s'
  | (Return, s') => (Return, s')
  | (Throw, s') => (Throw, s')
  end.

(** A call into a collaborator. *)
Definition call {A} (o : outcome A) : M A := fun s =>
  match o with
  | Ret a => (Normal a, s)
  | Raise => (Throw, s)
  end.

(** [return;] in a [void] function. *)
Definition return_ {A} : M A := fun s => (Return, s).

(** A statement that only changes the state. *)
Definition exec (f : state -> state) : M unit := fun s => (Normal tt, f s).

(** [ON_SCOPE_EXIT(...) { guard };] followed by the rest of the scope: the
    guard runs when the scope is left, however it is left. An object with a
    destructor is the same construct. *)
Definition on_scope_exit {A} (guard : M unit) (body : M A) : M A := fun s =>
  let (r, s') := body s in (r, snd (guard s')).

(** [try { body } catch (const Exception&) { handler }]. *)
Definition try_catch (body handler : M unit) : M unit := fun s =>
  match body s with
  | (Throw, s') => handler s'
  | r => r
  end.

(** Calling a [void] function: its [return] ends the call, not the caller. *)
Definition call_void (f : M unit) : M unit := fun s =>
  match f s with
  | (Return, s') => (Normal tt, s')
  | r => r
  end.

Definition LOG (sev : severity) (msg : string) (req : option Request) : M unit :=
  exec (add_log (Log sev msg req)).

(** *** ResponseWriter *)

(** Modelled from the spec: the constructor of the missing [ResponseWriter]
    keeps the request id, which every record echoes, and starts with no
    field buffered. *)
Definition ResponseWriter_new (request_id : string) : M unit :=
  exec (set_resp {| request_id_ := request_id; strm_ := []; done_ := false |}).

(** Modelled from the spec: [ResponseWriter::Print] is missing; the writer
    buffers the field after those printed before it. *)
Definition Print (v : field) : M unit :=
  exec (fun s => set_resp {| request_id_ := request_id_ (resp s);
                             strm_ := strm_ (resp s) ++ [v];
                             done_ := done_ (resp s) |} s).

(** Modelled from the spec: [ResponseWriter::Dump] is missing; it flushes
    the one record of the request: the id, is_repo = "1", and the buffered
    fields. *)
Definition Dump (log : string) : M unit :=
  exec (fun s =>
    emit (FStr (request_id_ (resp s)) :: FStr "1" :: strm_ (resp s))
         (set_resp {| request_id_ := request_id_ (resp s);
                      strm_ := strm_ (resp s);
                      done_ := true |} s)).

(** Modelled from the spec: the destructor of the missing [ResponseWriter];
    a writer that is left before [Dump] answers with the id and
    is_repo = "0" and no further field. *)
Definition ResponseWriter_delete : M unit :=
  exec (fun s =>
    if done_ (resp s) then s
    else emit [FStr (request_id_ (resp s)); FStr "0"] s).

(** *** std::future *)

(** [std::future<std::string> tag = repo->GetTagName(head_target);] When the
    call returns, the future is valid and the resolver is scheduled. *)
Definition tag_init (o : outcome (outcome string)) : M unit :=
  sh ← call o;
  exec (fun s => add_event EvTagScheduled (set_tag {| valid := true; shared := sh |} s)).

(** [tag.wait()] blocks until the shared state is ready. *)
Definition tag_wait : M unit := exec (add_event EvTagWait).

(** [tag.get()] waits, releases the shared state, and returns the value or
    rethrows the stored exception. *)
Definition tag_get : M string := fun s =>
  let s' := add_event EvTagGet (set_tag {| valid := false; shared := shared (tag s) |} s) in
  match shared (tag s) with
  | Ret v => (Normal v, s')
  | Raise => (Throw, s')
  end.

(** *** StringView *)

Record StringView := {
  ptr : string;
  len : nat
}.

(** The [StringView] of a C string. *)
Definition StringView_of (s : string) : StringView :=
  {| ptr := s; len := String.length s |}.

(** The characters a view denotes: [ptr[0..len)]. *)
Definition StringView_str (v : StringView) : string :=
  String.substring 0 (len v) (ptr v).

(** [workdir.ptr[workdir.len - 1] == '/'] *)
Definition last_is_slash (v : StringView) : bool :=
  match String.get (len v - 1) (ptr v) with
  | Some c => Ascii.eqb c "/"
  | None => false
  end.

(** [if (workdir.len > 1 && workdir.ptr[workdir.len - 1] == '/') --workdir.len;] *)
Definition strip_slash (workdir : StringView) : StringView :=
  if (1 <? len workdir) && last_is_slash workdir
  then {| ptr := ptr workdir; len := len workdir - 1 |}
  else workdir.

(** *** ProcessRequest *)

Definition ProcessRequest (opts : Options) (cache : Collaborators) (req : Request)
  : M unit :=
  on_scope_exit (exec (add_event (EvTimerReport "request"))) (
  ResponseWriter_new (id req);;
  on_scope_exit ResponseWriter_delete (
  repo ← call (cache_Open cache (dir req));
  match repo with
  | None => return_
  | Some repo =>
  head ← call (Head cache repo);
  match head with
  | None => return_
  | Some head =>
  on_scope_exit (exec (add_event (EvReferenceFree head))) (
  let head_target := git_reference_target cache head in
  tag_init (GetTagName cache repo head_target);;
  on_scope_exit
    (fun s => if valid (tag s)
              then try_catch tag_wait (mret tt) s
              else (Normal tt, s)) (
  let workdir := StringView_of (default "" (git_repository_workdir cache repo)) in
  if len workdir =? 0 then return_ else
  let workdir := strip_slash workdir in
  Print (FStr (StringView_str workdir));;
  Print (FStr (match head_target with
               | Some oid => git_oid_tostr_s cache oid
               | None => ""
               end));;
  local_branch ← call (LocalBranchName cache head);
  Print (FStr local_branch);;
  upstream ← call (Upstream cache head);
  on_scope_exit
    (match upstream with
     | Some u => exec (add_event (EvReferenceFree u))
     | None => mret tt
     end) (
  upstream_branch ← match upstream with
                    | Some u => call (RemoteBranchName cache repo u)
                    | None => mret ""
                    end;
  Print (FStr upstream_branch);;
  remote_url ← match upstream with
               | Some u => call (RemoteUrl cache repo u)
               | None => mret ""
               end;
  Print (FStr remote_url);;
  repo_state ← call (RepoState cache repo);
  Print (FStr repo_state);;
  stats ← call (GetIndexStats cache repo head_target (dirty_max_index_size opts));
  Print (FInt (has_staged stats));;
  Print (FInt (has_unstaged stats));;
  Print (FInt (has_untracked stats));;
  match upstream with
  | Some u =>
      ahead ← call (CountRange cache repo (git_reference_shorthand cache u +:+ "..HEAD"));
      Print (FInt (Z.of_N ahead));;
      behind ← call (CountRange cache repo ("HEAD.." +:+ git_reference_shorthand cache u));
      Print (FInt (Z.of_N behind))
  | None =>
      Print (FInt 0);;
      Print (FInt 0)
  end;;
  num_stashes ← call (NumStashes cache repo);
  Print (FInt (Z.of_N num_stashes));;
  tag_name ← tag_get;
  Print (FStr tag_name);;
  Dump "with git status")))
  end
  end)).

(** *** The request loop *)

(** Modelled from the spec: [request.h] is missing. The reader yields one
    request per input record; a malformed record is a parse error, which is
    logged and raised. *)
Inductive incoming :=
| Wellformed (req : Request)
| Malformed (raw : string).

(** Modelled from the spec: [RequestReader::ReadRequest] is missing; a parse
    error is logged and raised as an exception. *)
Definition ReadRequest (input : incoming) : M Request :=
  match input with
  | Wellformed req => mret req
  | Malformed raw => LOG ERROR ("Malformed request: " +:+ raw) None;; call Raise
  end.

(** One turn of the [while (true)] loop of [GitStatus]; [cache] is what the
    collaborators answer while this request is processed. *)
Definition GitStatus_turn (opts : Options) (input : incoming) (cache : Collaborators)
  : M unit :=
  try_catch
    (req ← ReadRequest input;
     LOG INFO "Processing request: " (Some req);;
     try_catch
       (call_void (ProcessRequest opts cache req);;
        LOG INFO "Successfully processed request: " (Some req))
       (LOG ERROR "Error processing request: " (Some req)))
    (mret tt).

(** The loop has no exit: its behaviour is observed on the finite prefixes
    of the input stream. *)
Fixpoint GitStatus_loop (opts : Options) (inputs : list (incoming * Collaborators))
  (s : state) : state :=
  match inputs with
  | [] => s
  | (input, cache) :: rest =>
      GitStatus_loop opts rest (snd (GitStatus_turn opts input cache s))
  end.

(** [GitStatus]: the arguments are logged, the options parsed, and the loop
    entered. The set-up of libgit2 and of the thread pool writes nothing to
    standard output or to the log and is left out. *)
Definition GitStatus (ParseOptions : list string -> Options) (argv : list string)
  (inputs : list (incoming * Collaborators)) (s : state) : state :=
  let s := fold_left (fun s arg => add_log (Log INFO ("argv: " +:+ arg) None) s) argv s in
  GitStatus_loop (ParseOptions argv) inputs s.

(** * What the program is compared with *)

(** ** The directory lister *)

(** The bytes one entry occupies: the type tag, the name, two NULs. *)
Definition entry_bytes (ent : dirent) : list ascii :=
  [d_type ent] ++ c_str (d_name ent) ++ [NUL; NUL].
Arguments entry_bytes : simpl never.

(** The records that are listed: all but "." and "..". *)
Definition listed (ents : list dirent) : list dirent :=
  List.filter (fun ent => negb (Dots (d_name ent))) ents.
Arguments listed : simpl never.

(** Where the name of the [k]-th listed entry starts in an arena that held
    [prefix] before the listing. *)
Definition name_offset (prefix : arena_t) (ents : list dirent) (k : nat) : nat :=
  length prefix + length (flat_map entry_bytes (take k ents)) + 1.

(** The records of a directory, as the read calls deliver them. *)
Fixpoint Linux_records (calls : Linux.getdents) : list dirent :=
  match calls with
  | Linux.GdBatch ent ents next => ent :: ents ++ Linux_records next
  | _ => []
  end.

Fixpoint Portable_records (calls : Portable.readdir) : list dirent :=
  match calls with
  | Portable.RdEntry ent next => ent :: Portable_records next
  | _ => []
  end.

(** Whether the read calls end with an error. *)
Fixpoint Linux_read_fails (calls : Linux.getdents) : bool :=
  match calls with
  | Linux.GdError => true
  | Linux.GdEnd => false
  | Linux.GdBatch _ _ next => Linux_read_fails next
  end.

Fixpoint Portable_read_fails (calls : Portable.readdir) : bool :=
  match calls with
  | Portable.RdError => true
  | Portable.RdEnd => false
  | Portable.RdEntry _ next => Portable_read_fails next
  end.

(** The layout the specification gives for the entries [ents] appended to
    an arena [prefix] and an index vector [index]. *)
Definition packed (prefix : arena_t) (index : list nat) (ents : list dirent)
  (out : listing) : Prop :=
  arena out = prefix ++ flat_map entry_bytes ents /\
  entries out = index ++ map (name_offset prefix ents) (seq 0 (length ents)) /\
  forall k ent, ents !! k = Some ent ->
    let off := name_offset prefix ents k in
    let name := c_str (d_name ent) in
    entries out !! (length index + k) = Some off /\
    arena out !! (off - 1) = Some (d_type ent) /\
    take (length name) (drop off (arena out)) = name /\
    take 2 (drop (off + length name) (arena out)) = [NUL; NUL].


(** ** The request loop *)

(** The response record of the specification, field by field. *)
Record Response := {
  r_id : string;
  r_is_repo : string;
  r_workdir : string;
  r_commit : string;
  r_local_branch : string;
  r_upstream_branch : string;
  r_remote_url : string;
  r_repo_state : string;
  r_has_staged : Z;
  r_has_unstaged : Z;
  r_has_untracked : Z;
  r_ahead : Z;
  r_behind : Z;
  r_num_stashes : Z;
  r_tag : string
}.

(** The fields in the order the specification lists them. *)
Definition Response_fields (r : Response) : list field :=
  [FStr (r_id r); FStr (r_is_repo r); FStr (r_workdir r); FStr (r_commit r);
   FStr (r_local_branch r); FStr (r_upstream_branch r); FStr (r_remote_url r);
   FStr (r_repo_state r); FInt (r_has_staged r); FInt (r_has_unstaged r);
   FInt (r_has_untracked r); FInt (r_ahead r); FInt (r_behind r);
   FInt (r_num_stashes r); FStr (r_tag r)].

(** Where each field of a full response comes from: [r] holds what the
    collaborators answer for the repository of [req]. *)
Definition answered (opts : Options) (cache : Collaborators) (req : Request)
  (r : Response) : Prop :=
  exists repo head workdir upstream stats num_stashes,
    cache_Open cache (dir req) = Ret (Some repo) /\
    Head cache repo = Ret (Some head) /\
    git_repository_workdir cache repo = Some workdir /\
    workdir <> "" /\
    Upstream cache head = Ret upstream /\
    GetIndexStats cache repo (git_reference_target cache head)
      (dirty_max_index_size opts) = Ret stats /\
    NumStashes cache repo = Ret num_stashes /\
    r_id r = id req /\
    r_is_repo r = "1" /\
    r_workdir r = StringView_str (strip_slash (StringView_of workdir)) /\
    r_commit r = match git_reference_target cache head with
                 | Some oid => git_oid_tostr_s cache oid
                 | None => ""
                 end /\
    LocalBranchName cache head = Ret (r_local_branch r) /\
    match upstream with
    | Some u =>
        RemoteBranchName cache repo u = Ret (r_upstream_branch r) /\
        RemoteUrl cache repo u = Ret (r_remote_url r) /\
        exists ahead behind,
          CountRange cache repo (git_reference_shorthand cache u +:+ "..HEAD") = Ret ahead /\
          CountRange cache repo ("HEAD.." +:+ git_reference_shorthand cache u) = Ret behind /\
          r_ahead r = Z.of_N ahead /\ r_behind r = Z.of_N behind
    | None =>
        r_upstream_branch r = "" /\ r_remote_url r = "" /\
        r_ahead r = 0%Z /\ r_behind r = 0%Z
    end /\
    RepoState cache repo = Ret (r_repo_state r) /\
    r_has_staged r = has_staged stats /\
    r_has_unstaged r = has_unstaged stats /\
    r_has_untracked r = has_untracked stats /\
    r_num_stashes r = Z.of_N num_stashes /\
    GetTagName cache repo (git_reference_target cache head) = Ret (Ret (r_tag r)).

(** Whether tag resolution is still in flight after the events [evs], given
    whether it was before them. *)
Fixpoint tag_in_flight (evs : list event) (before : bool) : bool :=
  match evs with
  | [] => before
  | EvTagScheduled :: rest => tag_in_flight rest true
  | EvTagWait :: rest => tag_in_flight rest false
  | EvTagGet :: rest => tag_in_flight rest false
  | _ :: rest => tag_in_flight rest before
  end.

(** [GetTagName] was called and handed back a future. *)
Definition tag_created (cache : Collaborators) (req : Request) : Prop :=
  exists repo head sh,
    cache_Open cache (dir req) = Ret (Some repo) /\
    Head cache repo = Ret (Some head) /\
    GetTagName cache repo (git_reference_target cache head) = Ret sh.

(** The specification's rule for the [workdir] field: the path with its
    trailing slash stripped, unless the path has length one. *)
Definition stripped_unless_root (path printed : string) : Prop :=
  (String.length path = 1 -> printed = path) /\
  (String.length path <> 1 -> forall p, path = p +:+ "/" -> printed = p) /\
  (String.length path <> 1 -> (forall p, path <> p +:+ "/") -> printed = path).


(** ** Example data *)

Definition DT_DIR : ascii := "004"%char.
Definition DT_REG : ascii := "008"%char.

Definition example_dirent (type : ascii) (name : string) : dirent :=
  {| d_ino := 1; d_off := 0; d_reclen := 24; d_type := type;
     d_name := list_ascii_of_string name ++ [NUL] |}.

(** A directory holding a file "ab" and a directory "c", read in two
    batches. *)
Definition example_getdents : Linux.getdents :=
  Linux.GdBatch (example_dirent DT_DIR ".")
    [example_dirent DT_DIR ".."; example_dirent DT_REG "ab"]
    (Linux.GdBatch (example_dirent DT_DIR "c") [] Linux.GdEnd).

(** The same directory when the second read fails. *)
Definition example_getdents_error : Linux.getdents :=
  Linux.GdBatch (example_dirent DT_DIR ".")
    [example_dirent DT_DIR ".."; example_dirent DT_REG "ab"]
    Linux.GdError.

Definition example_fs : Linux.filesystem := fun dirname =>
  if String.eqb dirname "/repo" then Some example_getdents
  else if String.eqb dirname "/gone" then Some example_getdents_error
  else None.

Definition example_readdir : Portable.readdir :=
  Portable.RdEntry (example_dirent DT_DIR ".")
    (Portable.RdEntry (example_dirent DT_REG "ab")
       (Portable.RdEntry (example_dirent DT_DIR "c") Portable.RdEnd)).

Definition example_readdir_error : Portable.readdir :=
  Portable.RdEntry (example_dirent DT_DIR ".")
    (Portable.RdEntry (example_dirent DT_REG "ab") Portable.RdError).

Definition example_opendir : Portable.filesystem := fun dirname =>
  if String.eqb dirname "/repo" then Some example_readdir else None.

Definition example_readdir_failing : Portable.filesystem := fun dirname =>
  if String.eqb dirname "/gone" then Some example_readdir_error else None.

(** An arena and an index vector that are not empty when [ListDir] is
    called. *)
Definition example_prior : listing :=
  {| arena := ["x"%char]; entries := [7] |}.

(** A repository at "/w/" on branch master tracking origin/main, two
    commits ahead and one behind, tagged v1.0. *)
Definition example_cache : Collaborators := {|
  cache_Open := fun d => if String.eqb d "/w/src" then Ret (Some 1) else Ret None;
  Head := fun _ => Ret (Some 2);
  git_reference_target := fun _ => Some 3;
  GetTagName := fun _ _ => Ret (Ret "v1.0");
  git_repository_workdir := fun _ => Some "/w/";
  git_oid_tostr_s := fun _ => "0123456789abcdef0123456789abcdef01234567";
  LocalBranchName := fun _ => Ret "master";
  Upstream := fun _ => Ret (Some 4);
  RemoteBranchName := fun _ _ => Ret "main";
  RemoteUrl := fun _ _ => Ret "git@example.org:w.git";
  RepoState := fun _ => Ret "";
  GetIndexStats := fun _ _ _ =>
    Ret {| has_staged := 1; has_unstaged := 0; has_untracked := -1 |};
  git_reference_shorthand := fun _ => "origin/main";
  CountRange := fun _ range =>
    if String.eqb range "origin/main..HEAD" then Ret 2%N
    else if String.eqb range "HEAD..origin/main" then Ret 1%N
    else Raise;
  NumStashes := fun _ => Ret 0%N
|}.

(** The same repository when reading the index fails. *)
Definition example_cache_failing : Collaborators := {|
  cache_Open := cache_Open example_cache;
  Head := Head example_cache;
  git_reference_target := git_reference_target example_cache;
  GetTagName := GetTagName example_cache;
  git_repository_workdir := git_repository_workdir example_cache;
  git_oid_tostr_s := git_oid_tostr_s example_cache;
  LocalBranchName := LocalBranchName example_cache;
  Upstream := Upstream example_cache;
  RemoteBranchName := RemoteBranchName example_cache;
  RemoteUrl := RemoteUrl example_cache;
  RepoState := RepoState example_cache;
  GetIndexStats := fun _ _ _ => Raise;
  git_reference_shorthand := git_reference_shorthand example_cache;
  CountRange := CountRange example_cache;
  NumStashes := NumStashes example_cache
|}.

(** The same repository without a working directory (a bare repository). *)
Definition example_cache_bare : Collaborators := {|
  cache_Open := cache_Open example_cache;
  Head := Head example_cache;
  git_reference_target := git_reference_target example_cache;
  GetTagName := GetTagName example_cache;
  git_repository_workdir := fun _ => None;
  git_oid_tostr_s := git_oid_tostr_s example_cache;
  LocalBranchName := LocalBranchName example_cache;
  Upstream := Upstream example_cache;
  RemoteBranchName := RemoteBranchName example_cache;
  RemoteUrl := RemoteUrl example_cache;
  RepoState := RepoState example_cache;
  GetIndexStats := GetIndexStats example_cache;
  git_reference_shorthand := git_reference_shorthand example_cache;
  CountRange := CountRange example_cache;
  NumStashes := NumStashes example_cache
|}.

Definition example_opts : Options :=
  {| num_threads := 4; dirty_max_index_size := 1000; lock_fd := -1; sigwinch_pid := -1 |}.

Definition example_request : Request :=
  {| id := "7"; dir := "/w/src"; diag := false |}.

Definition example_request_elsewhere : Request :=
  {| id := "8"; dir := "/tmp"; diag := false |}.

Definition initial_state : state :=
  {| cout := []; logs := []; events := [];
     resp := {| request_id_ := ""; strm_ := []; done_ := false |};
     tag := {| valid := false; shared := Raise |} |}.

(** ** Reading a listing *)

(** How a user of the listing takes an entry out of the arena: the name is
    the C string that starts at the recorded offset, the type tag is the
    byte before it. *)
Definition read_name (a : arena_t) (off : nat) : list ascii := c_str (drop off a).

Definition read_type (a : arena_t) (off : nat) : option ascii := a !! (off - 1).

(** ** Resources and events of a request *)

(** The references that the scope guards release, in the order of the
    releases. *)
Definition refs_freed (evs : list event) : list git_reference :=
  flat_map (fun e => match e with EvReferenceFree r => [r] | _ => [] end) evs.

(** The references [ProcessRequest] obtains, in the order it obtains them:
    [head] when the repository opens and has a HEAD, and [upstream] when
    the request gets as far as the call of [Upstream] and that call answers
    a reference. *)
Definition refs_acquired (cache : Collaborators) (req : Request)
  : list git_reference :=
  match cache_Open cache (dir req) with
  | Ret (Some repo) =>
      match Head cache repo with
      | Ret (Some head) =>
          head ::
          match GetTagName cache repo (git_reference_target cache head),
                String.length (default "" (git_repository_workdir cache repo)),
                LocalBranchName cache head,
                Upstream cache head with
          | Ret _, S _, Ret _, Ret (Some u) => [u]
          | _, _, _, _ => []
          end
      | _ => []
      end
  | _ => []
  end.

(** The events of the tag future among [evs]. *)
Definition tag_events (evs : list event) : list event :=
  List.filter (fun e => match e with
                        | EvTagScheduled | EvTagWait | EvTagGet => true
                        | _ => false
                        end) evs.

(** The situations in which [ProcessRequest] takes one of its [return]
    statements: no repository, no HEAD, or no working directory. *)
Definition early_return (cache : Collaborators) (req : Request) : Prop :=
  cache_Open cache (dir req) = Ret None \/
  exists repo,
    cache_Open cache (dir req) = Ret (Some repo) /\
    (Head cache repo = Ret None \/
     exists head sh,
       Head cache repo = Ret (Some head) /\
       GetTagName cache repo (git_reference_target cache head) = Ret sh /\
       default "" (git_repository_workdir cache repo) = "").

(** The ids of the well-formed requests of an input, in order. *)
Definition wellformed_ids (inputs : list (incoming * Collaborators)) : list string :=
  flat_map (fun i => match fst i with
                     | Wellformed req => [id req]
                     | Malformed _ => []
                     end) inputs.

(** The log line that closes the turn of a well-formed request. *)
Definition verdict (r : result unit) (req : Request) : log_line :=
  match r with
  | Throw => Log ERROR "Error processing request: " (Some req)
  | _ => Log INFO "Successfully processed request: " (Some req)
  end.

(** The record of [example_request] against [example_cache]. *)
Definition example_response : Response := {|
  r_id := "7"; r_is_repo := "1"; r_workdir := "/w";
  r_commit := "0123456789abcdef0123456789abcdef01234567";
  r_local_branch := "master"; r_upstream_branch := "main";
  r_remote_url := "git@example.org:w.git"; r_repo_state := "";
  r_has_staged := 1; r_has_unstaged := 0; r_has_untracked := -1;
  r_ahead := 2; r_behind := 1; r_num_stashes := 0; r_tag := "v1.0"
|}.

(** The directory of [example_getdents] read in one batch. *)
Definition example_getdents_one_batch : Linux.getdents :=
  Linux.GdBatch (example_dirent DT_DIR ".")
    [example_dirent DT_DIR ".."; example_dirent DT_REG "ab"; example_dirent DT_DIR "c"]
    Linux.GdEnd.

Definition example_fs_one_batch : Linux.filesystem := fun dirname =>
  if String.eqb dirname "/repo" then Some example_getdents_one_batch else None.

(** The directory of [example_readdir_error] when the reading ends at the
    end of the directory. *)
Definition example_readdir_short : Portable.readdir :=
  Portable.RdEntry (example_dirent DT_DIR ".")
    (Portable.RdEntry (example_dirent DT_REG "ab") Portable.RdEnd).

Definition example_opendir_short : Portable.filesystem := fun dirname =>
  if String.eqb dirname "/gone" then Some example_readdir_short else None.

(** * Properties *)

(** ** The directory lister *)

(** *** C strings and [Dots] *)

Lemma c_str_no_NUL name : NUL ∉ c_str name.
Proof.
  induction name as [|c rest IH]; simpl.
  - apply not_elem_of_nil.
  - destruct (Ascii.eqb_spec c NUL) as [->|Hc].
    + apply not_elem_of_nil.
    + rewrite elem_of_cons. intros [E|E]; [congruence | contradiction].
Qed.

Lemma Dots_true_iff name :
  Dots name = true <-> c_str name = [DOT] \/ c_str name = [DOT; DOT].
Proof.
  unfold Dots, c_at.
  destruct name as [|a rest]; simpl.
  { split; [discriminate | intros [?|?]; discriminate]. }
  destruct (Ascii.eqb_spec a DOT) as [->|Ha]; simpl.
  2:{ split; [discriminate|].
      destruct (Ascii.eqb_spec a NUL); intros [?|?]; try discriminate; congruence. }
  destruct rest as [|b rest]; simpl.
  { split; auto. }
  destruct (Ascii.eqb_spec b NUL) as [->|Hb]; simpl.
  { split; auto. }
  destruct (Ascii.eqb_spec b DOT) as [->|Hb']; simpl.
  2:{ split; [discriminate|]. intros [?|?]; try discriminate; congruence. }
  destruct rest as [|c rest]; simpl.
  { split; auto. }
  destruct (Ascii.eqb_spec c NUL) as [->|Hc]; simpl.
  { split; auto. }
  split; [discriminate|]. intros [?|?]; discriminate.
Qed.

Lemma listed_no_dots ents ent :
  ent ∈ listed ents ->
  ent ∈ ents /\ c_str (d_name ent) <> [DOT] /\ c_str (d_name ent) <> [DOT; DOT].
Proof.
  unfold listed. rewrite !list_elem_of_In, filter_In.
  intros [Hin Hd]. split; [exact Hin|].
  apply negb_true_iff in Hd.
  split; intros E; assert (Dots (d_name ent) = true) by (apply Dots_true_iff; auto);
    congruence.
Qed.

Lemma listed_app xs ys : listed (xs ++ ys) = listed xs ++ listed ys.
Proof. unfold listed. apply List.filter_app. Qed.

(** *** The loop body and the loops *)

Lemma length_entry_bytes ent :
  length (entry_bytes ent) = length (c_str (d_name ent)) + 3.
Proof. unfold entry_bytes. rewrite !length_app. simpl. lia. Qed.

Lemma name_offset_cons prefix ent ents k :
  name_offset prefix (ent :: ents) (S k) = name_offset (prefix ++ entry_bytes ent) ents k.
Proof.
  unfold name_offset.
  change (take (S k) (ent :: ents)) with (ent :: take k ents).
  change (flat_map entry_bytes (ent :: take k ents))
    with (entry_bytes ent ++ flat_map entry_bytes (take k ents)).
  rewrite !length_app. lia.
Qed.

Lemma push_entry_listed out ent :
  push_entry out ent =
  {| arena := arena out ++ flat_map entry_bytes (listed [ent]);
     entries := entries out ++
                map (name_offset (arena out) (listed [ent])) (seq 0 (length (listed [ent]))) |}.
Proof.
  unfold push_entry, listed. simpl.
  destruct (Dots (d_name ent)); simpl.
  - rewrite !app_nil_r. by destruct out.
  - unfold entry_bytes, name_offset. simpl.
    rewrite !app_nil_r, length_app. simpl.
    f_equal. + by rewrite <- !app_assoc. + do 2 f_equal. lia.
Qed.

Lemma offsets_app prefix xs ys :
  map (name_offset prefix (xs ++ ys)) (seq 0 (length (xs ++ ys))) =
  map (name_offset prefix xs) (seq 0 (length xs)) ++
  map (name_offset (prefix ++ flat_map entry_bytes xs) ys) (seq 0 (length ys)).
Proof.
  revert prefix. induction xs as [|x xs IH]; intros prefix; simpl.
  - rewrite app_nil_r. reflexivity.
  - f_equal.
    rewrite <- !seq_shift, !map_map.
    erewrite map_ext; [|intros k; apply name_offset_cons].
    rewrite IH. f_equal.
    + apply map_ext. intros k. symmetry. apply name_offset_cons.
    + by rewrite <- app_assoc.
Qed.

Lemma fold_push_entry ents out :
  fold_left push_entry ents out =
  {| arena := arena out ++ flat_map entry_bytes (listed ents);
     entries := entries out ++
                map (name_offset (arena out) (listed ents)) (seq 0 (length (listed ents))) |}.
Proof.
  revert out. induction ents as [|ent ents IH]; intros out.
  - simpl. rewrite !app_nil_r. by destruct out.
  - change (fold_left push_entry (ent :: ents) out)
      with (fold_left push_entry ents (push_entry out ent)).
    rewrite IH, push_entry_listed. cbn [arena entries].
    change (ent :: ents) with ([ent] ++ ents).
    rewrite listed_app, offsets_app, flat_map_app, <- !app_assoc.
    reflexivity.
Qed.

Lemma Linux_read_loop calls out :
  Linux.read_loop calls out =
  (negb (Linux_read_fails calls),
   {| arena := arena out ++ flat_map entry_bytes (listed (Linux_records calls));
      entries := entries out ++
                 map (name_offset (arena out) (listed (Linux_records calls)))
                     (seq 0 (length (listed (Linux_records calls)))) |}).
Proof.
  revert out. induction calls as [| |ent ents next IH]; intros out; simpl.
  - rewrite !app_nil_r. by destruct out.
  - rewrite !app_nil_r. by destruct out.
  - change (fold_left push_entry ents (push_entry out ent))
      with (fold_left push_entry (ent :: ents) out).
    rewrite IH, fold_push_entry. cbn [arena entries].
    change (ent :: ents ++ Linux_records next)
      with ((ent :: ents) ++ Linux_records next).
    rewrite listed_app, offsets_app, flat_map_app, <- !app_assoc.
    reflexivity.
Qed.

Lemma Portable_read_loop calls out :
  Portable.read_loop calls out =
  {| arena := arena out ++ flat_map entry_bytes (listed (Portable_records calls));
     entries := entries out ++
                map (name_offset (arena out) (listed (Portable_records calls)))
                    (seq 0 (length (listed (Portable_records calls)))) |}.
Proof.
  revert out. induction calls as [| |ent next IH]; intros out; simpl.
  - rewrite !app_nil_r. by destruct out.
  - rewrite !app_nil_r. by destruct out.
  - rewrite IH, push_entry_listed. cbn [arena entries].
    change (ent :: Portable_records next) with ([ent] ++ Portable_records next).
    rewrite listed_app, offsets_app, flat_map_app, <- !app_assoc.
    reflexivity.
Qed.

(** *** Reading an entry back from the arena *)

Lemma read_back (before after name : list ascii) (t : ascii) :
  let a := before ++ [t] ++ name ++ [NUL; NUL] ++ after in
  let off := length before + 1 in
  a !! (off - 1) = Some t /\
  take (length name) (drop off a) = name /\
  take 2 (drop (off + length name) a) = [NUL; NUL].
Proof.
  intros a off. subst a off.
  replace (length before + 1 - 1) with (length before + 0) by lia.
  replace (length before + 1) with (length (before ++ [t]))
    by (rewrite length_app; reflexivity).
  split; [|split].
  - rewrite lookup_app_r by lia.
    replace (length before + 0 - length before) with 0 by lia. reflexivity.
  - rewrite (app_assoc before [t]), drop_app_length.
    by rewrite take_app_length.
  - rewrite <- length_app.
    rewrite (app_assoc before [t]), (app_assoc (before ++ [t]) name).
    rewrite drop_app_length. reflexivity.
Qed.

Lemma packed_closed_form prefix index ents :
  packed prefix index ents
    {| arena := prefix ++ flat_map entry_bytes ents;
       entries := index ++ map (name_offset prefix ents) (seq 0 (length ents)) |}.
Proof.
  unfold packed. cbn [arena entries]. split; [reflexivity|]. split; [reflexivity|].
  intros k ent Hk. cbv zeta.
  assert (Hlt : k < length ents) by (eapply lookup_lt_Some; eauto).
  split.
  - rewrite lookup_app_r by lia.
    replace (length index + k - length index) with k by lia.
    change (map (name_offset prefix ents) (seq 0 (length ents)))
      with (name_offset prefix ents <$> seq 0 (length ents)).
    rewrite list_lookup_fmap, lookup_seq_lt by lia. reflexivity.
  - assert (Harena : prefix ++ flat_map entry_bytes ents =
                    (prefix ++ flat_map entry_bytes (take k ents)) ++
                    [d_type ent] ++ c_str (d_name ent) ++ [NUL; NUL] ++
                    flat_map entry_bytes (drop (S k) ents)).
    { rewrite <- (take_drop_middle ents k ent Hk) at 1.
      rewrite flat_map_app.
      change (flat_map entry_bytes (ent :: drop (S k) ents))
        with (entry_bytes ent ++ flat_map entry_bytes (drop (S k) ents)).
      unfold entry_bytes at 2. by rewrite <- !app_assoc. }
    rewrite Harena. unfold name_offset. rewrite <- length_app.
    apply (read_back (prefix ++ flat_map entry_bytes (take k ents))).
Qed.

Lemma listed_iff ents ent :
  ent ∈ listed ents <->
  ent ∈ ents /\ c_str (d_name ent) <> [DOT] /\ c_str (d_name ent) <> [DOT; DOT].
Proof.
  split; [apply listed_no_dots|].
  intros (Hin & H1 & H2).
  unfold listed. rewrite list_elem_of_In, filter_In. rewrite <- list_elem_of_In.
  split; [exact Hin|].
  destruct (Dots (d_name ent)) eqn:E; [|reflexivity].
  apply Dots_true_iff in E. tauto.
Qed.

(** *** The claims about [ListDir] *)

(** C5. In both builds, every record the read calls deliver, except those
    named "." and "..", is appended to the arena as one type-tag byte, the
    bytes of its name and two NUL bytes, and the index vector receives the
    offset of the first byte of its name; the records named "." and ".."
    are not listed. *)
Theorem ListDir_entry_layout
  (fsL : Linux.filesystem) (fsP : Portable.filesystem) (dirname : string)
  (out : listing) (callsL : Linux.getdents) (callsP : Portable.readdir) :
  fsL dirname = Some callsL ->
  fsP dirname = Some callsP ->
  packed [] [] (listed (Linux_records callsL)) (snd (Linux.ListDir fsL dirname out)) /\
  packed (arena out) (entries out) (listed (Portable_records callsP))
         (snd (Portable.ListDir fsP dirname out)) /\
  (forall ent, ent ∈ listed (Linux_records callsL) <->
     ent ∈ Linux_records callsL /\
     c_str (d_name ent) <> [DOT] /\ c_str (d_name ent) <> [DOT; DOT]) /\
  (forall ent, ent ∈ listed (Portable_records callsP) <->
     ent ∈ Portable_records callsP /\
     c_str (d_name ent) <> [DOT] /\ c_str (d_name ent) <> [DOT; DOT]).
Proof.
  intros HL HP. unfold Linux.ListDir, Portable.ListDir. rewrite HL, HP.
  rewrite Linux_read_loop, Portable_read_loop. cbn [snd arena entries].
  split; [apply (packed_closed_form [] [])|].
  split; [apply packed_closed_form|].
  split; intros ent; apply listed_iff.
Qed.

(** When [Linux.ListDir] reports failure: [open] failed, or a
    [getdents64] call returned an error. *)
Lemma Linux_ListDir_false_iff fs dirname out :
  fst (Linux.ListDir fs dirname out) = false <->
  fs dirname = None \/
  exists calls, fs dirname = Some calls /\ Linux_read_fails calls = true.
Proof.
  unfold Linux.ListDir. destruct (fs dirname) as [calls|].
  - rewrite Linux_read_loop. cbn [fst]. rewrite negb_false_iff. split.
    + intros H. right. by exists calls.
    + intros [H|(calls' & H & Hf)]; congruence.
  - split; auto.
Qed.

(** [Portable.ListDir] reports success whenever [opendir] succeeded. *)
Lemma Portable_ListDir_true_iff fs dirname out :
  fst (Portable.ListDir fs dirname out) = true <-> is_Some (fs dirname).
Proof.
  unfold Portable.ListDir. destruct (fs dirname) as [calls|]; cbn [fst].
  - split; eauto.
  - split; [discriminate | intros [? ?]; discriminate].
Qed.

(** C6, at the input where the portable build departs from it: [opendir]
    succeeds, [readdir] delivers two entries and then fails, and [ListDir]
    returns [true]. *)
Theorem Portable_ListDir_read_error_returns_true :
  example_readdir_failing "/gone" = Some example_readdir_error /\
  Portable_read_fails example_readdir_error = true /\
  Portable.ListDir example_readdir_failing "/gone" {| arena := []; entries := [] |} =
  (true, {| arena := ["008"; "a"; "b"; "000"; "000"]%char; entries := [1] |}).
Proof. repeat split. Qed.

(** C9. The Linux build clears the arena and the index vector it is handed,
    so what it returns does not depend on them and, on success, holds the
    entries of the directory and nothing else; the portable build keeps what
    they held and appends the entries after it. *)
Theorem ListDir_prior_contents
  (fsL : Linux.filesystem) (fsP : Portable.filesystem) (dirname : string)
  (out : listing) (callsL : Linux.getdents) (callsP : Portable.readdir) :
  fsL dirname = Some callsL ->
  fsP dirname = Some callsP ->
  let keptL := listed (Linux_records callsL) in
  let keptP := listed (Portable_records callsP) in
  (forall out', Linux.ListDir fsL dirname out = Linux.ListDir fsL dirname out') /\
  (fst (Linux.ListDir fsL dirname out) = true ->
   arena (snd (Linux.ListDir fsL dirname out)) = flat_map entry_bytes keptL /\
   entries (snd (Linux.ListDir fsL dirname out)) =
     map (name_offset [] keptL) (seq 0 (length keptL))) /\
  arena (snd (Portable.ListDir fsP dirname out)) =
    arena out ++ flat_map entry_bytes keptP /\
  entries (snd (Portable.ListDir fsP dirname out)) =
    entries out ++ map (name_offset (arena out) keptP) (seq 0 (length keptP)).
Proof.
  intros HL HP keptL keptP.
  unfold Linux.ListDir, Portable.ListDir. rewrite HL, HP.
  rewrite Linux_read_loop, Portable_read_loop. cbn [fst snd arena entries].
  repeat split.
Qed.

(** C10. When a [getdents64] call fails after at least one batch was read,
    the Linux build returns [false] and leaves in the arena and the index
    vector the entries of the batches read before the failure. *)
Theorem ListDir_no_rollback
  (fs : Linux.filesystem) (dirname : string) (out : listing)
  (ent : dirent) (ents : list dirent) (next : Linux.getdents) :
  fs dirname = Some (Linux.GdBatch ent ents next) ->
  Linux_read_fails next = true ->
  let kept := listed (ent :: ents ++ Linux_records next) in
  Linux.ListDir fs dirname out =
  (false, {| arena := flat_map entry_bytes kept;
             entries := map (name_offset [] kept) (seq 0 (length kept)) |}) /\
  (kept <> [] ->
   arena (snd (Linux.ListDir fs dirname out)) <> [] /\
   entries (snd (Linux.ListDir fs dirname out)) <> []).
Proof.
  intros Hfs Hfail kept.
  unfold Linux.ListDir. rewrite Hfs, Linux_read_loop.
  cbn [Linux_read_fails Linux_records fst snd arena entries app].
  rewrite Hfail. fold kept. split; [reflexivity|].
  intros Hne. destruct kept as [|e kept']; [congruence|].
  split.
  - cbn [flat_map]. unfold entry_bytes at 1. discriminate.
  - cbn [length seq map]. discriminate.
Qed.

(** ** The request loop *)

(** *** One lemma for all the paths through [ProcessRequest] *)

Ltac run := cbn -[String.append String.substring String.length String.get Z.of_N].

Ltac close_events :=
  rewrite <- ?app_assoc; eexists;
  split; [reflexivity|];
  split; [reflexivity|];
  intros (repo' & head' & sh' & H1' & H2' & H3');
  first [congruence | left].

Ltac failed_path :=
  run; repeat split; try reflexivity; try close_events.

Lemma ProcessRequest_paths opts cache req s :
  let r := fst (ProcessRequest opts cache req s) in
  let s' := snd (ProcessRequest opts cache req s) in
  logs s' = logs s /\
  (exists new, events s' = events s ++ new /\ tag_in_flight new false = false /\
               (tag_created cache req -> EvTagScheduled ∈ new)) /\
  match r with
  | Normal _ =>
      exists resp, answered opts cache req resp /\
                   cout s' = cout s ++ [Response_fields resp]
  | _ => cout s' = cout s ++ [[FStr (id req); FStr "0"]]
  end.
Proof.
  unfold ProcessRequest, on_scope_exit, tag_init, tag_get, try_catch, tag_wait,
    Print, Dump, ResponseWriter_new, ResponseWriter_delete, return_, exec, call,
    mbind, M_bind, mret, M_ret.
  run.
  destruct (cache_Open cache (dir req)) as [[repo|]|] eqn:HOpen; [|failed_path..].
  run.
  destruct (Head cache repo) as [[head|]|] eqn:HHead; [|failed_path..].
  run.
  destruct (GetTagName cache repo (git_reference_target cache head))
    as [sh|] eqn:HTag; [|failed_path].
  run.
  destruct (git_repository_workdir cache repo) as [workdir|] eqn:HWd; [|cbn; failed_path].
  run.
  destruct (String.length workdir =? 0) eqn:HLen; [failed_path|].
  run.
  destruct (LocalBranchName cache head) as [local_branch|] eqn:HLocal; [|failed_path].
  run.
  destruct (Upstream cache head) as [upstream|] eqn:HUp; [|failed_path].
  assert (Hne : workdir <> "") by (intros ->; discriminate).
  destruct upstream as [u|].
  - run.
    destruct (RemoteBranchName cache repo u) as [ub|] eqn:HUb; [|failed_path].
    run.
    destruct (RemoteUrl cache repo u) as [url|] eqn:HUrl; [|failed_path].
    run.
    destruct (RepoState cache repo) as [st|] eqn:HSt; [|failed_path].
    run.
    destruct (GetIndexStats cache repo (git_reference_target cache head)
                (dirty_max_index_size opts)) as [stats|] eqn:HStats; [|failed_path].
    run.
    destruct (CountRange cache repo (git_reference_shorthand cache u +:+ "..HEAD"))
      as [ahead|] eqn:HAhead; [|failed_path].
    run.
    destruct (CountRange cache repo ("HEAD.." +:+ git_reference_shorthand cache u))
      as [behind|] eqn:HBehind; [|failed_path].
    run.
    destruct (NumStashes cache repo) as [n|] eqn:HN; [|failed_path].
    run.
    destruct sh as [t|]; [|failed_path].
    run.
    split; [reflexivity|]. split; [close_events|].
    eexists (Build_Response _ _ _ _ _ _ _ _ _ _ _ _ _ _ _).
    split; [|reflexivity].
    exists repo, head, workdir, (Some u), stats, n.
    cbn [r_id r_is_repo r_workdir r_commit r_local_branch r_upstream_branch
         r_remote_url r_repo_state r_has_staged r_has_unstaged r_has_untracked
         r_ahead r_behind r_num_stashes r_tag].
    repeat split; try assumption; try reflexivity.
    exists ahead, behind. repeat split; assumption.
  - run.
    destruct (RepoState cache repo) as [st|] eqn:HSt; [|failed_path].
    run.
    destruct (GetIndexStats cache repo (git_reference_target cache head)
                (dirty_max_index_size opts)) as [stats|] eqn:HStats; [|failed_path].
    run.
    destruct (NumStashes cache repo) as [n|] eqn:HN; [|failed_path].
    run.
    destruct sh as [t|]; [|failed_path].
    run.
    split; [reflexivity|]. split; [close_events|].
    eexists (Build_Response _ _ _ _ _ _ _ _ _ _ _ _ _ _ _).
    split; [|reflexivity].
    exists repo, head, workdir, None, stats, n.
    cbn [r_id r_is_repo r_workdir r_commit r_local_branch r_upstream_branch
         r_remote_url r_repo_state r_has_staged r_has_unstaged r_has_untracked
         r_ahead r_behind r_num_stashes r_tag].
    repeat split; try assumption; try reflexivity.
Qed.

Lemma ProcessRequest_full opts cache req s :
  fst (ProcessRequest opts cache req s) = Normal tt ->
  exists r, answered opts cache req r /\
            cout (snd (ProcessRequest opts cache req s)) = cout s ++ [Response_fields r].
Proof.
  intros H. destruct (ProcessRequest_paths opts cache req s) as (_ & _ & Hr).
  cbv zeta in Hr. rewrite H in Hr. exact Hr.
Qed.

Lemma ProcessRequest_not_full opts cache req s :
  fst (ProcessRequest opts cache req s) <> Normal tt ->
  cout (snd (ProcessRequest opts cache req s)) = cout s ++ [[FStr (id req); FStr "0"]].
Proof.
  intros H. destruct (ProcessRequest_paths opts cache req s) as (_ & _ & Hr).
  cbv zeta in Hr.
  destruct (fst (ProcessRequest opts cache req s)) as [[]| |]; [congruence|exact Hr..].
Qed.

Lemma ProcessRequest_not_a_repo opts cache req s :
  cache_Open cache (dir req) = Ret None ->
  fst (ProcessRequest opts cache req s) = Return.
Proof.
  intros H.
  unfold ProcessRequest, on_scope_exit, ResponseWriter_new, ResponseWriter_delete,
    return_, exec, call, mbind, M_bind.
  cbn. rewrite H. reflexivity.
Qed.

(** What a turn of the loop leaves on standard output is what
    [ProcessRequest] wrote. *)
Lemma GitStatus_turn_wellformed opts cache req s :
  fst (GitStatus_turn opts (Wellformed req) cache s) = Normal tt /\
  cout (snd (GitStatus_turn opts (Wellformed req) cache s)) =
  cout (snd (ProcessRequest opts cache req
               (add_log (Log INFO "Processing request: " (Some req)) s))).
Proof.
  unfold GitStatus_turn, try_catch, call_void, ReadRequest, LOG, exec,
    mbind, M_bind, mret, M_ret.
  cbn.
  destruct (ProcessRequest opts cache req _) as [[[]| |] s']; cbn; auto.
Qed.

(** *** Events *)

Lemma tag_in_flight_after_schedule post :
  tag_in_flight post true = false -> EvTagWait ∈ post \/ EvTagGet ∈ post.
Proof.
  induction post as [|e post IH]; [discriminate|].
  destruct e; cbn; intros H;
    try (destruct (IH H); [left|right]; right; assumption).
  - left. left.
  - right. left.
Qed.

Lemma tag_in_flight_drained evs before pre post :
  tag_in_flight evs before = false ->
  evs = pre ++ EvTagScheduled :: post ->
  EvTagWait ∈ post \/ EvTagGet ∈ post.
Proof.
  intros H ->. revert before H.
  induction pre as [|e pre IH]; intros before H.
  - apply tag_in_flight_after_schedule. exact H.
  - destruct e; cbn in H; eauto.
Qed.

(** *** Strings *)

Lemma append_nil q : "" +:+ q = q.
Proof. reflexivity. Qed.

Lemma append_cons a p q : String a p +:+ q = String a (p +:+ q).
Proof. reflexivity. Qed.

Lemma length_snoc p c : String.length (p +:+ String c "") = S (String.length p).
Proof.
  induction p as [|a p IH]; [reflexivity|].
  rewrite append_cons. cbn [String.length]. by rewrite IH.
Qed.

Lemma get_snoc p c : String.get (String.length p) (p +:+ String c "") = Some c.
Proof.
  induction p as [|a p IH]; [reflexivity|].
  rewrite append_cons. exact IH.
Qed.

Lemma substring_snoc p c : String.substring 0 (String.length p) (p +:+ String c "") = p.
Proof.
  induction p as [|a p IH]; [reflexivity|].
  rewrite append_cons. cbn [String.length String.substring]. by rewrite IH.
Qed.

Lemma substring_all s : String.substring 0 (String.length s) s = s.
Proof.
  induction s as [|a s IH]; [reflexivity|].
  cbn [String.length String.substring]. by rewrite IH.
Qed.

Lemma snoc_cases s : s = "" \/ exists p c, s = p +:+ String c "".
Proof.
  induction s as [|a s IH]; [by left | right].
  destruct IH as [->|(p & c & ->)].
  - by exists "", a.
  - by exists (String a p), c.
Qed.

Lemma snoc_inj p q c d : p +:+ String c "" = q +:+ String d "" -> p = q /\ c = d.
Proof.
  revert q. induction p as [|a p IH]; intros [|b q];
    rewrite ?append_nil, ?append_cons; intros H.
  - by inversion H.
  - inversion H as [[Ha Hq]]. destruct q; discriminate.
  - inversion H as [[Ha Hp]]. destruct p; discriminate.
  - inversion H as [[Ha Hpq]]. destruct (IH _ Hpq) as [-> ->]. auto.
Qed.

Lemma strip_slash_spec path :
  stripped_unless_root path (StringView_str (strip_slash (StringView_of path))).
Proof.
  unfold stripped_unless_root, strip_slash, StringView_str, StringView_of, last_is_slash.
  cbn [len ptr].
  destruct (snoc_cases path) as [->|(p & c & ->)].
  { cbn. split; [auto|]. split; [|auto]. intros _ [|a p] Hp; discriminate. }
  rewrite length_snoc. replace (S (String.length p) - 1) with (String.length p) by lia.
  rewrite get_snoc.
  destruct (1 <? S (String.length p)) eqn:Hlen; cbn [andb].
  - apply Nat.ltb_lt in Hlen.
    destruct (Ascii.eqb_spec c "/") as [->|Hc]; cbn [len ptr].
    + rewrite substring_snoc. split; [lia|]. split.
      * intros _ q Hq. apply snoc_inj in Hq. tauto.
      * intros _ Hno. exfalso. by apply (Hno p).
    + rewrite <- (length_snoc p c), substring_all. split; [auto|]. split.
      * intros _ q Hq. apply snoc_inj in Hq. tauto.
      * auto.
  - apply Nat.ltb_ge in Hlen. cbn [len ptr].
    rewrite <- (length_snoc p c), substring_all. split; [auto|].
    rewrite length_snoc. split; intros; lia.
Qed.

(** *** The claims about [ProcessRequest] and the loop *)

(** C1. Whenever [GetTagName] has handed back the tag future, the events of
    the request contain its creation, and every creation is followed, before
    [ProcessRequest] is left (by reaching its end, by [return] or by an
    exception), by a [wait] or a [get] on the future: no tag resolution is
    in flight when the request ends. *)
Theorem ProcessRequest_awaits_tag opts cache req s :
  exists new,
    events (snd (ProcessRequest opts cache req s)) = events s ++ new /\
    (tag_created cache req -> EvTagScheduled ∈ new) /\
    (forall pre post, new = pre ++ EvTagScheduled :: post ->
       EvTagWait ∈ post \/ EvTagGet ∈ post) /\
    tag_in_flight new false = false.
Proof.
  destruct (ProcessRequest_paths opts cache req s) as (_ & (new & Hev & Hfl & Hcr) & _).
  exists new. repeat split; try assumption.
  intros pre post. apply (tag_in_flight_drained new false pre post Hfl).
Qed.

(** C2. A request that is processed to the end emits one record, whose
    fields are, in this order: id, is_repo, workdir, commit, local_branch,
    upstream_branch, remote_url, repo_state, has_staged, has_unstaged,
    has_untracked, ahead, behind, num_stashes, tag. *)
Theorem ProcessRequest_field_order opts cache req s :
  fst (ProcessRequest opts cache req s) = Normal tt ->
  exists r,
    answered opts cache req r /\
    cout (snd (ProcessRequest opts cache req s)) =
    cout s ++
    [[FStr (r_id r); FStr (r_is_repo r); FStr (r_workdir r); FStr (r_commit r);
      FStr (r_local_branch r); FStr (r_upstream_branch r); FStr (r_remote_url r);
      FStr (r_repo_state r); FInt (r_has_staged r); FInt (r_has_unstaged r);
      FInt (r_has_untracked r); FInt (r_ahead r); FInt (r_behind r);
      FInt (r_num_stashes r); FStr (r_tag r)]].
Proof. apply ProcessRequest_full. Qed.

(** C3. A request whose directory is not inside a repository, and a request
    whose processing throws, is answered with the record made of the request
    id and is_repo = "0" and nothing else. *)
Theorem GitStatus_turn_not_repo_or_error opts cache req s :
  cache_Open cache (dir req) = Ret None \/
  fst (ProcessRequest opts cache req
         (add_log (Log INFO "Processing request: " (Some req)) s)) = Throw ->
  fst (GitStatus_turn opts (Wellformed req) cache s) = Normal tt /\
  cout (snd (GitStatus_turn opts (Wellformed req) cache s)) =
  cout s ++ [[FStr (id req); FStr "0"]].
Proof.
  intros H.
  destruct (GitStatus_turn_wellformed opts cache req s) as [Hr Hc].
  split; [exact Hr|]. rewrite Hc.
  rewrite ProcessRequest_not_full; [reflexivity|].
  destruct H as [H|H].
  - rewrite ProcessRequest_not_a_repo by exact H. discriminate.
  - rewrite H. discriminate.
Qed.

(** C4. A malformed request is logged, nothing is written to standard
    output for it, and the loop goes on with the requests that follow: the
    next well-formed request gets its record. *)
Theorem GitStatus_drops_malformed opts raw cache rest s :
  let s' := snd (GitStatus_turn opts (Malformed raw) cache s) in
  fst (GitStatus_turn opts (Malformed raw) cache s) = Normal tt /\
  logs s' = logs s ++ [Log ERROR ("Malformed request: " +:+ raw) None] /\
  cout s' = cout s /\
  GitStatus_loop opts ((Malformed raw, cache) :: rest) s = GitStatus_loop opts rest s' /\
  forall req cache',
    exists record,
      cout (GitStatus_loop opts [(Malformed raw, cache); (Wellformed req, cache')] s) =
      cout s ++ [record] /\
      record !! 0 = Some (FStr (id req)).
Proof.
  cbv zeta. repeat split.
  intros req cache'.
  change (GitStatus_loop opts [(Malformed raw, cache); (Wellformed req, cache')] s)
    with (snd (GitStatus_turn opts (Wellformed req) cache'
                 (add_log (Log ERROR ("Malformed request: " +:+ raw) None) s))).
  destruct (GitStatus_turn_wellformed opts cache' req
              (add_log (Log ERROR ("Malformed request: " +:+ raw) None) s)) as [_ ->].
  set (s1 := add_log _ (add_log _ s)).
  change (cout s) with (cout s1).
  destruct (fst (ProcessRequest opts cache' req s1)) as [[]| |] eqn:Hr.
  - destruct (ProcessRequest_full opts cache' req s1 Hr) as (r & Ha & ->).
    eexists; split; [reflexivity|].
    destruct Ha as (? & ? & ? & ? & ? & ? & _ & _ & _ & _ & _ & _ & _ & Hid & _).
    cbn. by rewrite Hid.
  - rewrite ProcessRequest_not_full by (rewrite Hr; discriminate).
    eexists; split; reflexivity.
  - rewrite ProcessRequest_not_full by (rewrite Hr; discriminate).
    eexists; split; reflexivity.
Qed.

(** C7. In a full response the workdir field is the working-directory path
    of the repository with its trailing slash removed, except that a path
    of length one keeps it. *)
Theorem ProcessRequest_workdir_field opts cache req s :
  fst (ProcessRequest opts cache req s) = Normal tt ->
  exists repo path record printed,
    cache_Open cache (dir req) = Ret (Some repo) /\
    git_repository_workdir cache repo = Some path /\
    last (cout (snd (ProcessRequest opts cache req s))) = Some record /\
    record !! 2 = Some (FStr printed) /\
    stripped_unless_root path printed.
Proof.
  intros H. destruct (ProcessRequest_full opts cache req s H) as (r & Ha & Hc).
  destruct Ha as (repo & head & path & up & stats & n & HOpen & _ & HWd & _ & _ & _
                  & _ & _ & _ & Hw & _).
  exists repo, path, (Response_fields r), (r_workdir r).
  rewrite Hc, last_snoc.
  split; [assumption|]. split; [assumption|].
  split; [reflexivity|]. split; [reflexivity|].
  rewrite Hw. apply strip_slash_spec.
Qed.

(** C8. In a full response, ahead and behind are 0 when the branch has no
    upstream; with an upstream they are the counts of the ranges
    upstream..HEAD and HEAD..upstream; both are non-negative. *)
Theorem ProcessRequest_ahead_behind opts cache req s :
  fst (ProcessRequest opts cache req s) = Normal tt ->
  exists repo head upstream record ahead behind,
    cache_Open cache (dir req) = Ret (Some repo) /\
    Head cache repo = Ret (Some head) /\
    Upstream cache head = Ret upstream /\
    last (cout (snd (ProcessRequest opts cache req s))) = Some record /\
    record !! 11 = Some (FInt ahead) /\
    record !! 12 = Some (FInt behind) /\
    (0 <= ahead)%Z /\ (0 <= behind)%Z /\
    match upstream with
    | None => ahead = 0%Z /\ behind = 0%Z
    | Some u =>
        exists a b,
          CountRange cache repo (git_reference_shorthand cache u +:+ "..HEAD") = Ret a /\
          CountRange cache repo ("HEAD.." +:+ git_reference_shorthand cache u) = Ret b /\
          ahead = Z.of_N a /\ behind = Z.of_N b
    end.
Proof.
  intros H. destruct (ProcessRequest_full opts cache req s H) as (r & Ha & Hc).
  destruct Ha as (repo & head & path & up & stats & n & HOpen & HHead & _ & _ & HUp & _
                  & _ & _ & _ & _ & _ & _ & Hup & _).
  exists repo, head, up, (Response_fields r), (r_ahead r), (r_behind r).
  rewrite Hc, last_snoc.
  repeat (split; [first [assumption | reflexivity]|]).
  destruct up as [u|].
  - destruct Hup as (_ & _ & a & b & Ha & Hb & -> & ->).
    split; [lia|]. split; [lia|]. by exists a, b.
  - destruct Hup as (_ & _ & -> & ->). repeat split; lia.
Qed.

(** *** The claims at the example data *)

Lemma ListDir_entry_layout_example :
  packed [] [] (listed (Linux_records example_getdents))
         (snd (Linux.ListDir example_fs "/repo" example_prior)) /\
  packed (arena example_prior) (entries example_prior)
         (listed (Portable_records example_readdir))
         (snd (Portable.ListDir example_opendir "/repo" example_prior)) /\
  (forall ent, ent ∈ listed (Linux_records example_getdents) <->
     ent ∈ Linux_records example_getdents /\
     c_str (d_name ent) <> [DOT] /\ c_str (d_name ent) <> [DOT; DOT]) /\
  (forall ent, ent ∈ listed (Portable_records example_readdir) <->
     ent ∈ Portable_records example_readdir /\
     c_str (d_name ent) <> [DOT] /\ c_str (d_name ent) <> [DOT; DOT]).
Proof.
  apply (ListDir_entry_layout example_fs example_opendir "/repo" example_prior
           example_getdents example_readdir); reflexivity.
Defined.

Lemma ListDir_prior_contents_example :
  (forall out', Linux.ListDir example_fs "/repo" example_prior =
                Linux.ListDir example_fs "/repo" out') /\
  (fst (Linux.ListDir example_fs "/repo" example_prior) = true ->
   arena (snd (Linux.ListDir example_fs "/repo" example_prior)) =
     flat_map entry_bytes (listed (Linux_records example_getdents)) /\
   entries (snd (Linux.ListDir example_fs "/repo" example_prior)) =
     map (name_offset [] (listed (Linux_records example_getdents)))
         (seq 0 (length (listed (Linux_records example_getdents))))) /\
  arena (snd (Portable.ListDir example_opendir "/repo" example_prior)) =
    arena example_prior ++ flat_map entry_bytes (listed (Portable_records example_readdir)) /\
  entries (snd (Portable.ListDir example_opendir "/repo" example_prior)) =
    entries example_prior ++
    map (name_offset (arena example_prior) (listed (Portable_records example_readdir)))
        (seq 0 (length (listed (Portable_records example_readdir)))).
Proof.
  apply (ListDir_prior_contents example_fs example_opendir "/repo" example_prior
           example_getdents example_readdir); reflexivity.
Defined.

Lemma ListDir_no_rollback_example :
  Linux.ListDir example_fs "/gone" example_prior =
  (false, {| arena := [DT_REG; "a"; "b"; NUL; NUL]%char; entries := [1] |}) /\
  (listed (Linux_records example_getdents_error) <> [] ->
   arena (snd (Linux.ListDir example_fs "/gone" example_prior)) <> [] /\
   entries (snd (Linux.ListDir example_fs "/gone" example_prior)) <> []).
Proof.
  apply (ListDir_no_rollback example_fs "/gone" example_prior
           (example_dirent DT_DIR ".")
           [example_dirent DT_DIR ".."; example_dirent DT_REG "ab"]
           Linux.GdError); reflexivity.
Defined.

Lemma ProcessRequest_field_order_example :
  exists r,
    answered example_opts example_cache example_request r /\
    cout (snd (ProcessRequest example_opts example_cache example_request initial_state)) =
    cout initial_state ++
    [[FStr (r_id r); FStr (r_is_repo r); FStr (r_workdir r); FStr (r_commit r);
      FStr (r_local_branch r); FStr (r_upstream_branch r); FStr (r_remote_url r);
      FStr (r_repo_state r); FInt (r_has_staged r); FInt (r_has_unstaged r);
      FInt (r_has_untracked r); FInt (r_ahead r); FInt (r_behind r);
      FInt (r_num_stashes r); FStr (r_tag r)]].
Proof.
  apply (ProcessRequest_field_order example_opts example_cache example_request
           initial_state).
  reflexivity.
Defined.

Lemma GitStatus_turn_not_repo_example :
  fst (GitStatus_turn example_opts (Wellformed example_request_elsewhere)
         example_cache initial_state) = Normal tt /\
  cout (snd (GitStatus_turn example_opts (Wellformed example_request_elsewhere)
               example_cache initial_state)) =
  cout initial_state ++ [[FStr "8"; FStr "0"]].
Proof.
  apply (GitStatus_turn_not_repo_or_error example_opts example_cache
           example_request_elsewhere initial_state).
  left. reflexivity.
Defined.

Lemma ProcessRequest_workdir_field_example :
  exists repo path record printed,
    cache_Open example_cache (dir example_request) = Ret (Some repo) /\
    git_repository_workdir example_cache repo = Some path /\
    last (cout (snd (ProcessRequest example_opts example_cache example_request
                       initial_state))) = Some record /\
    record !! 2 = Some (FStr printed) /\
    stripped_unless_root path printed.
Proof.
  apply (ProcessRequest_workdir_field example_opts example_cache example_request
           initial_state).
  reflexivity.
Defined.

Lemma ProcessRequest_ahead_behind_example :
  exists repo head upstream record ahead behind,
    cache_Open example_cache (dir example_request) = Ret (Some repo) /\
    Head example_cache repo = Ret (Some head) /\
    Upstream example_cache head = Ret upstream /\
    last (cout (snd (ProcessRequest example_opts example_cache example_request
                       initial_state))) = Some record /\
    record !! 11 = Some (FInt ahead) /\
    record !! 12 = Some (FInt behind) /\
    (0 <= ahead)%Z /\ (0 <= behind)%Z /\
    match upstream with
    | None => ahead = 0%Z /\ behind = 0%Z
    | Some u =>
        exists a b,
          CountRange example_cache repo
            (git_reference_shorthand example_cache u +:+ "..HEAD") = Ret a /\
          CountRange example_cache repo
            ("HEAD.." +:+ git_reference_shorthand example_cache u) = Ret b /\
          ahead = Z.of_N a /\ behind = Z.of_N b
    end.
Proof.
  apply (ProcessRequest_ahead_behind example_opts example_cache example_request
           initial_state).
  reflexivity.
Defined.

(** The runs behind the examples. *)

Example ProcessRequest_example_record :
  cout (snd (ProcessRequest example_opts example_cache example_request initial_state)) =
  [[FStr "7"; FStr "1"; FStr "/w"; FStr "0123456789abcdef0123456789abcdef01234567";
    FStr "master"; FStr "main"; FStr "git@example.org:w.git"; FStr "";
    FInt 1; FInt 0; FInt (-1); FInt 2; FInt 1; FInt 0; FStr "v1.0"]].
Proof. reflexivity. Qed.

Example ProcessRequest_example_failure :
  ProcessRequest example_opts example_cache_failing example_request initial_state =
  (Throw,
   {| cout := [[FStr "7"; FStr "0"]];
      logs := [];
      events := [EvTagScheduled; EvReferenceFree 4; EvTagWait; EvReferenceFree 2;
                 EvTimerReport "request"];
      resp := {| request_id_ := "7";
                 strm_ := [FStr "/w"; FStr "0123456789abcdef0123456789abcdef01234567";
                           FStr "master"; FStr "main"; FStr "git@example.org:w.git";
                           FStr ""];
                 done_ := false |};
      tag := {| valid := true; shared := Ret "v1.0" |} |}).
Proof. reflexivity. Qed.

Example ProcessRequest_example_early_return :
  ProcessRequest example_opts example_cache_bare example_request initial_state =
  (Return,
   {| cout := [[FStr "7"; FStr "0"]];
      logs := [];
      events := [EvTagScheduled; EvTagWait; EvReferenceFree 2; EvTimerReport "request"];
      resp := {| request_id_ := "7"; strm_ := []; done_ := false |};
      tag := {| valid := true; shared := Ret "v1.0" |} |}).
Proof. reflexivity. Qed.

Example GitStatus_loop_example :
  cout (GitStatus_loop example_opts
          [(Malformed "no separator", example_cache);
           (Wellformed example_request_elsewhere, example_cache);
           (Wellformed example_request, example_cache_failing)]
          initial_state) =
  [[FStr "8"; FStr "0"]; [FStr "7"; FStr "0"]].
Proof. reflexivity. Qed.

Example strip_slash_examples :
  StringView_str (strip_slash (StringView_of "/w/")) = "/w" /\
  StringView_str (strip_slash (StringView_of "/")) = "/" /\
  StringView_str (strip_slash (StringView_of "/w")) = "/w" /\
  StringView_str (strip_slash (StringView_of "/w//")) = "/w/".
Proof. repeat split. Qed.

Example Dots_examples :
  Dots (list_ascii_of_string "." ++ [NUL]) = true /\
  Dots (list_ascii_of_string ".." ++ [NUL]) = true /\
  Dots (list_ascii_of_string "..." ++ [NUL]) = false /\
  Dots (list_ascii_of_string ".git" ++ [NUL]) = false /\
  Dots [NUL] = false.
Proof. repeat split. Qed.

(** * Further properties *)

(** ** The directory lister *)

Lemma c_str_app_NUL (name rest : list ascii) :
  NUL ∉ name -> c_str (name ++ NUL :: rest) = name.
Proof.
  induction name as [|c name IH]; intros Hn; simpl.
  - reflexivity.
  - destruct (Ascii.eqb_spec c NUL) as [->|Hc].
    + exfalso. apply Hn. left.
    + f_equal. apply IH. intros Hin. apply Hn. by right.
Qed.

Lemma c_str_of_string (s : string) (pad : list ascii) :
  NUL ∉ list_ascii_of_string s ->
  c_str (list_ascii_of_string s ++ NUL :: pad) = list_ascii_of_string s.
Proof. apply c_str_app_NUL. Qed.

Lemma list_ascii_of_string_inj s t :
  list_ascii_of_string s = list_ascii_of_string t -> s = t.
Proof.
  intros H. rewrite <- (string_of_list_ascii_of_string s),
    <- (string_of_list_ascii_of_string t). by rewrite H.
Qed.

(** X1. For a [d_name] array that holds the NUL-terminated name [s],
    followed by any padding, [Dots] answers [true] exactly when [s] is "."
    or "..". *)
Theorem Dots_of_name (s : string) (pad : list ascii) :
  NUL ∉ list_ascii_of_string s ->
  Dots (list_ascii_of_string s ++ NUL :: pad) = true <-> s = "." \/ s = "..".
Proof.
  intros Hn. rewrite Dots_true_iff, c_str_of_string by exact Hn.
  split; intros [H|H].
  - left. by apply list_ascii_of_string_inj.
  - right. by apply list_ascii_of_string_inj.
  - left. by rewrite H.
  - right. by rewrite H.
Qed.

Lemma Dots_of_name_example :
  Dots (list_ascii_of_string ".git" ++ NUL :: [NUL; NUL; NUL]) = true <->
  ".git" = "." \/ ".git" = "..".
Proof.
  apply (Dots_of_name ".git" [NUL; NUL; NUL]).
  intros H. repeat (apply elem_of_cons in H as [H|H]; [discriminate H|]).
  by apply elem_of_nil in H.
Defined.

(** Taking an entry out of a packed listing gives back its name and type. *)
Lemma packed_read prefix index ents out k ent :
  packed prefix index ents out ->
  ents !! k = Some ent ->
  exists off,
    entries out !! (length index + k) = Some off /\
    read_type (arena out) off = Some (d_type ent) /\
    read_name (arena out) off = c_str (d_name ent).
Proof.
  intros (_ & _ & H) Hk. destruct (H k ent Hk) as (Hoff & Hty & Hname & Hnul).
  eexists. split; [exact Hoff|]. split; [exact Hty|].
  unfold read_name.
  set (off := name_offset prefix ents k) in *.
  set (name := c_str (d_name ent)) in *.
  rewrite <- (take_drop (length name) (drop off (arena out))), Hname.
  rewrite drop_drop.
  destruct (drop (off + length name) (arena out)) as [|a [|b rest]] eqn:E;
    try discriminate Hnul.
  injection Hnul as -> ->.
  apply c_str_app_NUL. apply c_str_no_NUL.
Qed.

(** X4. In both builds the listing can be read back: for the [k]-th listed
    record, the C string found in the arena at the [k]-th new offset is the
    name of the record, and the byte before it is its type. *)
Theorem ListDir_read_back
  (fsL : Linux.filesystem) (fsP : Portable.filesystem) (dirname : string)
  (out : listing) (callsL : Linux.getdents) (callsP : Portable.readdir) :
  fsL dirname = Some callsL ->
  fsP dirname = Some callsP ->
  (forall k ent, listed (Linux_records callsL) !! k = Some ent ->
     exists off,
       entries (snd (Linux.ListDir fsL dirname out)) !! k = Some off /\
       read_type (arena (snd (Linux.ListDir fsL dirname out))) off = Some (d_type ent) /\
       read_name (arena (snd (Linux.ListDir fsL dirname out))) off = c_str (d_name ent)) /\
  (forall k ent, listed (Portable_records callsP) !! k = Some ent ->
     exists off,
       entries (snd (Portable.ListDir fsP dirname out)) !! (length (entries out) + k)
         = Some off /\
       read_type (arena (snd (Portable.ListDir fsP dirname out))) off = Some (d_type ent) /\
       read_name (arena (snd (Portable.ListDir fsP dirname out))) off = c_str (d_name ent)).
Proof.
  intros HL HP. unfold Linux.ListDir, Portable.ListDir. rewrite HL, HP.
  rewrite Linux_read_loop, Portable_read_loop. cbn [snd].
  split; intros k ent Hk.
  - apply (packed_read [] [] _ _ k ent (packed_closed_form [] [] _) Hk).
  - apply (packed_read _ _ _ _ k ent (packed_closed_form _ _ _) Hk).
Qed.

Lemma ListDir_read_back_example :
  (forall k ent, listed (Linux_records example_getdents) !! k = Some ent ->
     exists off,
       entries (snd (Linux.ListDir example_fs "/repo" example_prior)) !! k = Some off /\
       read_type (arena (snd (Linux.ListDir example_fs "/repo" example_prior))) off
         = Some (d_type ent) /\
       read_name (arena (snd (Linux.ListDir example_fs "/repo" example_prior))) off
         = c_str (d_name ent)) /\
  (forall k ent, listed (Portable_records example_readdir) !! k = Some ent ->
     exists off,
       entries (snd (Portable.ListDir example_opendir "/repo" example_prior))
         !! (length (entries example_prior) + k) = Some off /\
       read_type (arena (snd (Portable.ListDir example_opendir "/repo" example_prior))) off
         = Some (d_type ent) /\
       read_name (arena (snd (Portable.ListDir example_opendir "/repo" example_prior))) off
         = c_str (d_name ent)).
Proof.
  apply (ListDir_read_back example_fs example_opendir "/repo" example_prior
           example_getdents example_readdir); reflexivity.
Defined.

(** Offsets grow by at least three from one entry to the next, and every
    entry lies inside the arena. *)
Lemma flat_map_take_le (ents : list dirent) k ent :
  ents !! k = Some ent ->
  length (flat_map entry_bytes (take k ents)) + length (entry_bytes ent) <=
  length (flat_map entry_bytes ents).
Proof.
  intros Hk.
  assert (H : flat_map entry_bytes ents =
              flat_map entry_bytes (take k ents) ++ entry_bytes ent ++
              flat_map entry_bytes (drop (S k) ents)).
  { rewrite <- (take_drop_middle ents k ent Hk) at 1. by rewrite flat_map_app. }
  rewrite H, !length_app. lia.
Qed.

Lemma flat_map_take_step (ents : list dirent) i j ent :
  ents !! i = Some ent -> i < j ->
  length (flat_map entry_bytes (take i ents)) + length (entry_bytes ent) <=
  length (flat_map entry_bytes (take j ents)).
Proof.
  intros Hi Hij.
  assert (Hi' : take j ents !! i = Some ent) by (rewrite lookup_take_lt; auto).
  pose proof (flat_map_take_le (take j ents) i ent Hi') as H.
  rewrite take_take in H. replace (i `min` j) with i in H by lia. exact H.
Qed.

Lemma offsets_lookup prefix (ents : list dirent) k off :
  map (name_offset prefix ents) (seq 0 (length ents)) !! k = Some off ->
  k < length ents /\ off = name_offset prefix ents k.
Proof.
  change (map (name_offset prefix ents) (seq 0 (length ents)))
    with (name_offset prefix ents <$> seq 0 (length ents)).
  rewrite list_lookup_fmap. intros H.
  destruct (seq 0 (length ents) !! k) as [n|] eqn:E; [|discriminate].
  apply lookup_seq in E as [-> Hlt]. injection H as <-. auto.
Qed.

(** X5. After the Linux build has read a directory, the offsets in the
    index vector grow by at least three from one entry to the next, none is
    zero, and each leaves room in the arena for the two closing NULs. *)
Theorem Linux_ListDir_index_bounds
  (fs : Linux.filesystem) (dirname : string) (out : listing)
  (calls : Linux.getdents) :
  fs dirname = Some calls ->
  let out' := snd (Linux.ListDir fs dirname out) in
  (forall i j oi oj, i < j ->
     entries out' !! i = Some oi -> entries out' !! j = Some oj -> oi + 3 <= oj) /\
  (forall k off, entries out' !! k = Some off ->
     1 <= off /\ off + 2 <= length (arena out')).
Proof.
  intros Hfs out'. subst out'. unfold Linux.ListDir. rewrite Hfs, Linux_read_loop.
  cbn [snd arena entries app].
  set (kept := listed (Linux_records calls)).
  split.
  - intros i j oi oj Hij Hi Hj.
    apply offsets_lookup in Hi as [Hil ->]. apply offsets_lookup in Hj as [Hjl ->].
    destruct (lookup_lt_is_Some_2 kept i Hil) as [ent He].
    pose proof (flat_map_take_step kept i j ent He Hij) as H.
    rewrite length_entry_bytes in H. unfold name_offset. lia.
  - intros k off Hk. apply offsets_lookup in Hk as [Hkl ->].
    destruct (lookup_lt_is_Some_2 kept k Hkl) as [ent He].
    pose proof (flat_map_take_le kept k ent He) as H.
    rewrite length_entry_bytes in H. unfold name_offset. simpl length. lia.
Qed.

Lemma Linux_ListDir_index_bounds_example :
  (forall i j oi oj, i < j ->
     entries (snd (Linux.ListDir example_fs "/repo" example_prior)) !! i = Some oi ->
     entries (snd (Linux.ListDir example_fs "/repo" example_prior)) !! j = Some oj ->
     oi + 3 <= oj) /\
  (forall k off,
     entries (snd (Linux.ListDir example_fs "/repo" example_prior)) !! k = Some off ->
     1 <= off /\
     off + 2 <= length (arena (snd (Linux.ListDir example_fs "/repo" example_prior)))).
Proof.
  apply (Linux_ListDir_index_bounds example_fs "/repo" example_prior example_getdents).
  reflexivity.
Defined.

(** X6. What the Linux build returns depends on the records read and on
    whether the reading ends in an error, not on how the kernel splits the
    records into batches. *)
Theorem Linux_ListDir_batching
  (fs1 fs2 : Linux.filesystem) (dirname : string) (out1 out2 : listing)
  (calls1 calls2 : Linux.getdents) :
  fs1 dirname = Some calls1 ->
  fs2 dirname = Some calls2 ->
  Linux_records calls1 = Linux_records calls2 ->
  Linux_read_fails calls1 = Linux_read_fails calls2 ->
  Linux.ListDir fs1 dirname out1 = Linux.ListDir fs2 dirname out2.
Proof.
  intros H1 H2 Hr Hf. unfold Linux.ListDir. rewrite H1, H2, !Linux_read_loop.
  cbn [arena entries]. by rewrite Hr, Hf.
Qed.

Lemma Linux_ListDir_batching_example :
  Linux.ListDir example_fs "/repo" example_prior =
  Linux.ListDir example_fs_one_batch "/repo" {| arena := []; entries := [] |}.
Proof.
  apply (Linux_ListDir_batching example_fs example_fs_one_batch "/repo" example_prior
           {| arena := []; entries := [] |} example_getdents example_getdents_one_batch);
    reflexivity.
Defined.

(** X7. On a directory that is read to its end, the Linux build returns
    what the portable build returns, for the same records apart from "."
    and "..", when it is handed an empty arena and an empty index vector. *)
Theorem ListDir_builds_agree
  (fsL : Linux.filesystem) (fsP : Portable.filesystem) (dirname : string)
  (out : listing) (callsL : Linux.getdents) (callsP : Portable.readdir) :
  fsL dirname = Some callsL ->
  fsP dirname = Some callsP ->
  listed (Linux_records callsL) = listed (Portable_records callsP) ->
  Linux_read_fails callsL = false ->
  Linux.ListDir fsL dirname out =
  Portable.ListDir fsP dirname {| arena := []; entries := [] |}.
Proof.
  intros HL HP Hr Hf. unfold Linux.ListDir, Portable.ListDir.
  rewrite HL, HP, Linux_read_loop, Portable_read_loop.
  cbn [arena entries]. by rewrite Hr, Hf.
Qed.

Lemma ListDir_builds_agree_example :
  Linux.ListDir example_fs "/repo" example_prior =
  Portable.ListDir example_opendir "/repo" {| arena := []; entries := [] |}.
Proof.
  apply (ListDir_builds_agree example_fs example_opendir "/repo" example_prior
           example_getdents example_readdir); reflexivity.
Defined.

Lemma length_flat_map_entry_bytes (ents : list dirent) :
  length (flat_map entry_bytes ents) =
  sum_list (map (fun ent => length (c_str (d_name ent)) + 3) ents).
Proof.
  induction ents as [|ent ents IH]; [reflexivity|].
  change (flat_map entry_bytes (ent :: ents))
    with (entry_bytes ent ++ flat_map entry_bytes ents).
  rewrite length_app, length_entry_bytes, IH. reflexivity.
Qed.

(** X8. After the Linux build has read a directory, the index vector has
    one offset for each record not named "." or "..", and the arena holds
    three bytes more than its name for each of them. *)
Theorem Linux_ListDir_sizes
  (fs : Linux.filesystem) (dirname : string) (out : listing)
  (calls : Linux.getdents) :
  fs dirname = Some calls ->
  let out' := snd (Linux.ListDir fs dirname out) in
  let kept := listed (Linux_records calls) in
  length (entries out') = length kept /\
  length (arena out') = sum_list (map (fun ent => length (c_str (d_name ent)) + 3) kept).
Proof.
  intros Hfs out' kept. subst out'. unfold Linux.ListDir.
  rewrite Hfs, Linux_read_loop. cbn [snd arena entries app].
  split.
  - by rewrite length_map, length_seq.
  - apply length_flat_map_entry_bytes.
Qed.

Lemma Linux_ListDir_sizes_example :
  length (entries (snd (Linux.ListDir example_fs "/repo" example_prior))) =
    length (listed (Linux_records example_getdents)) /\
  length (arena (snd (Linux.ListDir example_fs "/repo" example_prior))) =
    sum_list (map (fun ent => length (c_str (d_name ent)) + 3)
                  (listed (Linux_records example_getdents))).
Proof.
  apply (Linux_ListDir_sizes example_fs "/repo" example_prior example_getdents).
  reflexivity.
Defined.

(** X2. The Linux build returns [false] exactly when [open] fails or a
    [getdents64] call returns an error, and [true] exactly when the
    directory opens and is read to its end. *)
Theorem Linux_ListDir_result (fs : Linux.filesystem) (dirname : string) (out : listing) :
  (fst (Linux.ListDir fs dirname out) = false <->
   fs dirname = None \/
   exists calls, fs dirname = Some calls /\ Linux_read_fails calls = true) /\
  (fst (Linux.ListDir fs dirname out) = true <->
   exists calls, fs dirname = Some calls /\ Linux_read_fails calls = false).
Proof.
  split; [apply Linux_ListDir_false_iff|].
  unfold Linux.ListDir. destruct (fs dirname) as [calls|].
  - rewrite Linux_read_loop. cbn [fst]. rewrite negb_true_iff. split.
    + intros H. by exists calls.
    + intros (calls' & H & Hf). congruence.
  - split; [discriminate | intros (calls & H & _); discriminate].
Qed.

(** X3. Once [opendir] has succeeded the portable build returns [true], and
    what it returns depends on the entries [readdir] delivered only: a
    reading that ends in an error gives the same result as one that ends at
    the end of the directory. *)
Theorem Portable_ListDir_ignores_read_errors
  (fs1 fs2 : Portable.filesystem) (dirname : string) (out : listing)
  (calls1 calls2 : Portable.readdir) :
  fs1 dirname = Some calls1 ->
  fs2 dirname = Some calls2 ->
  Portable_records calls1 = Portable_records calls2 ->
  fst (Portable.ListDir fs1 dirname out) = true /\
  Portable.ListDir fs1 dirname out = Portable.ListDir fs2 dirname out.
Proof.
  intros H1 H2 Hr. unfold Portable.ListDir. rewrite H1, H2, !Portable_read_loop.
  split; [reflexivity|]. by rewrite Hr.
Qed.

Lemma Portable_ListDir_ignores_read_errors_example :
  fst (Portable.ListDir example_readdir_failing "/gone" example_prior) = true /\
  Portable.ListDir example_readdir_failing "/gone" example_prior =
  Portable.ListDir example_opendir_short "/gone" example_prior.
Proof.
  apply (Portable_ListDir_ignores_read_errors example_readdir_failing
           example_opendir_short "/gone" example_prior
           example_readdir_error example_readdir_short); reflexivity.
Defined.

(** ** The request loop *)

Ltac use_answers :=
  repeat match goal with
         | H : ?l = _ |- context [?l] => rewrite H
         end.

Ltac close_trace :=
  rewrite <- ?app_assoc; eexists;
  split; [reflexivity|];
  split; [unfold refs_acquired; use_answers; reflexivity|];
  unfold tag_events; cbn; auto.

Ltac refute_early :=
  intros [HE|(r' & HO' & [HH'|(h' & sh' & HH' & HT' & HW')])];
  try congruence;
  match goal with
  | HOpen : cache_Open _ _ = Ret (Some ?repo),
    HWd : git_repository_workdir _ ?repo = _ |- _ =>
      assert (r' = repo) by congruence; subst r';
      rewrite HWd in HW'; discriminate HW'
  end.

Ltac other_path :=
  run; split; [close_trace | split; [discriminate | refute_early]].

(** The events of a request and the cases of its [return] statements, path
    by path. *)
Lemma ProcessRequest_trace opts cache req s :
  (exists new,
     events (snd (ProcessRequest opts cache req s)) = events s ++ new /\
     refs_freed new = rev (refs_acquired cache req) /\
     (tag_events new = [] \/
      tag_events new = [EvTagScheduled; EvTagWait] \/
      tag_events new = [EvTagScheduled; EvTagGet])) /\
  (fst (ProcessRequest opts cache req s) = Return <-> early_return cache req).
Proof.
  unfold ProcessRequest, on_scope_exit, tag_init, tag_get, try_catch, tag_wait,
    Print, Dump, ResponseWriter_new, ResponseWriter_delete, return_, exec, call,
    mbind, M_bind, mret, M_ret.
  run.
  destruct (cache_Open cache (dir req)) as [[repo|]|] eqn:HOpen.
  2:{ run. split; [close_trace|]. split; [intros _; by left | reflexivity]. }
  2:{ other_path. }
  run.
  destruct (Head cache repo) as [[head|]|] eqn:HHead.
  2:{ run. split; [close_trace|].
      split; [intros _; right; exists repo; auto | reflexivity]. }
  2:{ other_path. }
  run.
  destruct (GetTagName cache repo (git_reference_target cache head))
    as [sh|] eqn:HTag; [|other_path].
  run.
  destruct (git_repository_workdir cache repo) as [[|c w]|] eqn:HWd.
  2:{ cbn -[String.append String.substring String.get Z.of_N strip_slash StringView_str].
      destruct (LocalBranchName cache head) as [local_branch|] eqn:HLocal;
        [|other_path].
      run.
      destruct (Upstream cache head) as [[u|]|] eqn:HUp; [| |other_path].
      - run.
        destruct (RemoteBranchName cache repo u) as [ub|] eqn:HUb; [|other_path].
        run.
        destruct (RemoteUrl cache repo u) as [url|] eqn:HUrl; [|other_path].
        run.
        destruct (RepoState cache repo) as [st|] eqn:HSt; [|other_path].
        run.
        destruct (GetIndexStats cache repo (git_reference_target cache head)
                    (dirty_max_index_size opts)) as [stats|] eqn:HStats; [|other_path].
        run.
        destruct (CountRange cache repo (git_reference_shorthand cache u +:+ "..HEAD"))
          as [ahead|] eqn:HAhead; [|other_path].
        run.
        destruct (CountRange cache repo ("HEAD.." +:+ git_reference_shorthand cache u))
          as [behind|] eqn:HBehind; [|other_path].
        run.
        destruct (NumStashes cache repo) as [n|] eqn:HN; [|other_path].
        run.
        destruct sh as [t|]; other_path.
      - run.
        destruct (RepoState cache repo) as [st|] eqn:HSt; [|other_path].
        run.
        destruct (GetIndexStats cache repo (git_reference_target cache head)
                    (dirty_max_index_size opts)) as [stats|] eqn:HStats; [|other_path].
        run.
        destruct (NumStashes cache repo) as [n|] eqn:HN; [|other_path].
        run.
        destruct sh as [t|]; other_path. }
  - cbn. split; [close_trace|].
    split; [intros _|reflexivity].
    right. exists repo. split; [assumption|]. right. exists head, sh.
    rewrite HWd. auto.
  - cbn. split; [close_trace|].
    split; [intros _|reflexivity].
    right. exists repo. split; [assumption|]. right. exists head, sh.
    rewrite HWd. auto.
Qed.

(** X9. On every path through [ProcessRequest] the references it obtained
    from [Head] and [Upstream] are released, each once and the later one
    first, and no other reference is released. *)
Theorem ProcessRequest_releases_references opts cache req s :
  exists new,
    events (snd (ProcessRequest opts cache req s)) = events s ++ new /\
    refs_freed new = rev (refs_acquired cache req).
Proof.
  destruct (ProcessRequest_trace opts cache req s) as ((new & Hev & Hfree & _) & _).
  by exists new.
Qed.

(** X10. The tag future is awaited once: the events of the future in a
    request are none, or its creation followed by one [wait], or its
    creation followed by one [get]; the guard never waits on a future that
    [get] has consumed. *)
Theorem ProcessRequest_awaits_once opts cache req s :
  exists new,
    events (snd (ProcessRequest opts cache req s)) = events s ++ new /\
    (tag_events new = [] \/
     tag_events new = [EvTagScheduled; EvTagWait] \/
     tag_events new = [EvTagScheduled; EvTagGet]).
Proof.
  destruct (ProcessRequest_trace opts cache req s) as ((new & Hev & _ & Htag) & _).
  by exists new.
Qed.

(** X11. [ProcessRequest] leaves through one of its [return] statements
    exactly when the directory is in no repository, or the repository has
    no HEAD, or it has no working directory (a null or empty path). *)
Theorem ProcessRequest_returns_early_iff opts cache req s :
  fst (ProcessRequest opts cache req s) = Return <-> early_return cache req.
Proof. apply ProcessRequest_trace. Qed.

(** X12. A path that is not empty is never printed as the empty string:
    the workdir field is the path itself or the path without one final
    slash. *)
Theorem strip_slash_nonempty (path : string) :
  path <> "" ->
  let printed := StringView_str (strip_slash (StringView_of path)) in
  printed <> "" /\ (printed = path \/ path = printed +:+ "/").
Proof.
  intros Hne. cbv zeta.
  unfold strip_slash, StringView_str, StringView_of, last_is_slash. cbn [len ptr].
  destruct (snoc_cases path) as [->|(p & c & ->)]; [congruence|].
  rewrite length_snoc. replace (S (String.length p) - 1) with (String.length p) by lia.
  rewrite get_snoc.
  destruct (1 <? S (String.length p)) eqn:Hlen; cbn [andb].
  - apply Nat.ltb_lt in Hlen.
    destruct (Ascii.eqb_spec c "/") as [->|Hc]; cbn [len ptr].
    + rewrite substring_snoc. split; [|by right].
      intros ->. cbn in Hlen. lia.
    + rewrite <- (length_snoc p c), substring_all. split; [exact Hne | by left].
  - cbn [len ptr]. rewrite <- (length_snoc p c), substring_all.
    split; [exact Hne | by left].
Qed.

Lemma strip_slash_nonempty_example :
  StringView_str (strip_slash (StringView_of "/")) <> "" /\
  (StringView_str (strip_slash (StringView_of "/")) = "/" \/
   "/" = StringView_str (strip_slash (StringView_of "/")) +:+ "/").
Proof. apply (strip_slash_nonempty "/"). discriminate. Defined.

(** X13. Every call of [ProcessRequest] writes one record, which starts
    with the id of the request; the record has the fifteen fields and
    is_repo = "1" when the call ran to its end, and is the id followed by
    "0" otherwise. *)
Theorem ProcessRequest_one_record opts cache req s :
  exists record,
    cout (snd (ProcessRequest opts cache req s)) = cout s ++ [record] /\
    record !! 0 = Some (FStr (id req)) /\
    (fst (ProcessRequest opts cache req s) = Normal tt ->
     record !! 1 = Some (FStr "1") /\ length record = 15) /\
    (fst (ProcessRequest opts cache req s) <> Normal tt ->
     record = [FStr (id req); FStr "0"]).
Proof.
  destruct (fst (ProcessRequest opts cache req s)) as [[]| |] eqn:Hr.
  - destruct (ProcessRequest_full opts cache req s Hr) as (r & Ha & Hc).
    exists (Response_fields r). split; [exact Hc|].
    destruct Ha as (? & ? & ? & ? & ? & ? & _ & _ & _ & _ & _ & _ & _ & Hid & Hrepo & _).
    cbn. rewrite Hid, Hrepo. repeat split; congruence.
  - exists [FStr (id req); FStr "0"].
    split; [apply ProcessRequest_not_full; rewrite Hr; discriminate|].
    repeat split; discriminate.
  - exists [FStr (id req); FStr "0"].
    split; [apply ProcessRequest_not_full; rewrite Hr; discriminate|].
    repeat split; discriminate.
Qed.

(** The state a turn of the loop leaves for a well-formed request. *)
Lemma GitStatus_turn_wellformed_state opts cache req s :
  snd (GitStatus_turn opts (Wellformed req) cache s) =
  add_log
    (verdict (fst (ProcessRequest opts cache req
                     (add_log (Log INFO "Processing request: " (Some req)) s))) req)
    (snd (ProcessRequest opts cache req
            (add_log (Log INFO "Processing request: " (Some req)) s))).
Proof.
  unfold GitStatus_turn, try_catch, call_void, ReadRequest, LOG, exec,
    mbind, M_bind, mret, M_ret.
  cbn.
  destruct (ProcessRequest opts cache req _) as [[[]| |] s']; reflexivity.
Qed.

(** X14. The turn of a well-formed request adds two lines to the log: that
    the request is being processed, and then either that it was processed
    successfully or, when [ProcessRequest] threw, that there was an error.
    A request answered with is_repo = "0" through a [return] counts as
    processed successfully. *)
Theorem GitStatus_turn_log opts cache req s :
  logs (snd (GitStatus_turn opts (Wellformed req) cache s)) =
  logs s ++
  [Log INFO "Processing request: " (Some req);
   verdict (fst (ProcessRequest opts cache req
                   (add_log (Log INFO "Processing request: " (Some req)) s))) req].
Proof.
  rewrite GitStatus_turn_wellformed_state.
  destruct (ProcessRequest_paths opts cache req
              (add_log (Log INFO "Processing request: " (Some req)) s)) as (Hl & _).
  cbv zeta in Hl. cbn [logs add_log]. rewrite Hl. cbn [logs add_log].
  by rewrite <- app_assoc.
Qed.

(** X15. No exception and no [return] leaves a turn of the loop, whatever
    the input and whatever the collaborators answer: the loop always goes
    on to its next turn. *)
Theorem GitStatus_turn_completes opts input cache s :
  fst (GitStatus_turn opts input cache s) = Normal tt.
Proof.
  destruct input as [req|raw].
  - apply GitStatus_turn_wellformed.
  - reflexivity.
Qed.

Lemma ProcessRequest_record_id opts cache req s :
  exists record,
    cout (snd (ProcessRequest opts cache req s)) = cout s ++ [record] /\
    record !! 0 = Some (FStr (id req)).
Proof.
  destruct (fst (ProcessRequest opts cache req s)) as [[]| |] eqn:Hr.
  - destruct (ProcessRequest_full opts cache req s Hr) as (r & Ha & Hc).
    exists (Response_fields r). split; [exact Hc|].
    destruct Ha as (? & ? & ? & ? & ? & ? & _ & _ & _ & _ & _ & _ & _ & Hid & _).
    cbn. by rewrite Hid.
  - eexists. split; [apply ProcessRequest_not_full; rewrite Hr; discriminate|].
    reflexivity.
  - eexists. split; [apply ProcessRequest_not_full; rewrite Hr; discriminate|].
    reflexivity.
Qed.

Lemma GitStatus_turn_record opts input cache s :
  exists records,
    cout (snd (GitStatus_turn opts input cache s)) = cout s ++ records /\
    (fun r : list field => r !! 0) <$> records =
    (fun i => Some (FStr i)) <$> wellformed_ids [(input, cache)].
Proof.
  destruct input as [req|raw].
  - destruct (GitStatus_turn_wellformed opts cache req s) as [_ ->].
    destruct (ProcessRequest_record_id opts cache req
                (add_log (Log INFO "Processing request: " (Some req)) s))
      as (record & Hc & Hid).
    exists [record]. split; [exact Hc|]. cbn. by rewrite Hid.
  - exists []. split; [|reflexivity]. cbn. by rewrite app_nil_r.
Qed.

Lemma wellformed_ids_cons input cache rest :
  wellformed_ids ((input, cache) :: rest) =
  wellformed_ids [(input, cache)] ++ wellformed_ids rest.
Proof. unfold wellformed_ids. cbn [flat_map]. by rewrite app_nil_r. Qed.

(** X16. The loop answers in the order of the requests: the records it
    writes are one for each well-formed request, in the order of the
    requests and each starting with the id of its request, and none for a
    malformed request. *)
Theorem GitStatus_loop_responses opts inputs s :
  exists records,
    cout (GitStatus_loop opts inputs s) = cout s ++ records /\
    (fun r : list field => r !! 0) <$> records =
    (fun i => Some (FStr i)) <$> wellformed_ids inputs.
Proof.
  revert s. induction inputs as [|[input cache] rest IH]; intros s.
  - exists []. split; [|reflexivity]. cbn. by rewrite app_nil_r.
  - cbn [GitStatus_loop].
    destruct (GitStatus_turn_record opts input cache s) as (first & Hc1 & Hid1).
    destruct (IH (snd (GitStatus_turn opts input cache s))) as (others & Hc2 & Hid2).
    exists (first ++ others).
    rewrite Hc2, Hc1, <- app_assoc. split; [reflexivity|].
    rewrite wellformed_ids_cons, !fmap_app. by rewrite Hid1, Hid2.
Qed.



Lemma length_nonempty (s : string) : s <> "" -> exists n, String.length s = S n.
Proof. destruct s as [|c s]; [congruence|]. intros _. by exists (String.length s). Qed.

(** X18. When every collaborator answers, that is when [answered] holds for
    some response [r], [ProcessRequest] runs to its end and the record it
    writes is [r]: no path fails or returns early without a collaborator
    having failed, answered a null pointer or an empty working directory. *)
Theorem ProcessRequest_complete opts cache req s r :
  answered opts cache req r ->
  fst (ProcessRequest opts cache req s) = Normal tt /\
  cout (snd (ProcessRequest opts cache req s)) = cout s ++ [Response_fields r].
Proof.
  intros (repo & head & path & up & stats & n & HOpen & HHead & HWd & Hne & HUp & HStats
          & HN & Hid & Hrepo & Hw & Hcommit & HLocal & Hup & HSt & Hs1 & Hs2 & Hs3
          & Hn & HTag).
  destruct (length_nonempty path Hne) as [m Hlen].
  destruct r as [rid rrepo rw rcommit rlocal rub rurl rst rs1 rs2 rs3 ra rb rn rtag].
  cbn [r_id r_is_repo r_workdir r_commit r_local_branch r_upstream_branch
       r_remote_url r_repo_state r_has_staged r_has_unstaged r_has_untracked
       r_ahead r_behind r_num_stashes r_tag] in *.
  unfold ProcessRequest, on_scope_exit, tag_init, tag_get, try_catch, tag_wait,
    Print, Dump, ResponseWriter_new, ResponseWriter_delete, return_, exec, call,
    mbind, M_bind, mret, M_ret.
  run. rewrite HOpen. run. rewrite HHead. run. rewrite HTag. run. rewrite HWd.
  cbn [default from_option StringView_of len ptr]. unfold Datatypes.id. rewrite Hlen.
  cbn -[String.append String.substring String.length String.get Z.of_N
        strip_slash StringView_str StringView_of].
  rewrite HLocal. run. rewrite HUp.
  destruct up as [u|].
  - destruct Hup as (HUb & HUrl & ahead & behind & HA & HB & -> & ->).
    run. rewrite HUb. run. rewrite HUrl. run. rewrite HSt. run. rewrite HStats.
    run. rewrite HA. run. rewrite HB. run. rewrite HN. run.
    subst. split; reflexivity.
  - destruct Hup as (-> & -> & -> & ->).
    run. rewrite HSt. run. rewrite HStats. run. rewrite HN. run.
    subst. split; reflexivity.
Qed.

Lemma example_answered :
  answered example_opts example_cache example_request example_response.
Proof.
  exists 1, 2, "/w/", (Some 4),
    {| has_staged := 1; has_unstaged := 0; has_untracked := -1 |}, 0%N.
  repeat split; try reflexivity; try discriminate.
  exists 2%N, 1%N. repeat split.
Qed.

Lemma ProcessRequest_complete_example :
  fst (ProcessRequest example_opts example_cache example_request initial_state)
    = Normal tt /\
  cout (snd (ProcessRequest example_opts example_cache example_request initial_state))
    = cout initial_state ++ [Response_fields example_response].
Proof.
  apply (ProcessRequest_complete example_opts example_cache example_request
           initial_state example_response).
  exact example_answered.
Defined.
